(** * DROP lifecycle: a shallow embedding of [dfms/drop.py] and
      [dfms/apps/dockerapp.py]

    The Python objects are records, attribute writes are explicit state
    passing, and a raised exception is a result that still carries the
    object as mutated up to the raise. *)

From Stdlib Require Import ZArith List Bool Lia.
From Stdlib.Strings Require Import Byte Ascii String.
From stdpp Require Import base gmap sets list strings.
Import ListNotations.

Local Open Scope Z_scope.
Local Open Scope string_scope.
Local Open Scope list_scope.

(** ** Results of calls *)

Inductive Exn : Type :=
| NoMoreWriting          (* "No more writing expected" *)
| NotCompleted           (* "... (!=COMPLETED), cannot be opened for reading / read" *)
| IllegalDescriptor      (* "Illegal descriptor %d given, remember to open() first" *)
| CannotSetComplete      (* "not in INITIALIZED or WRITING state" *)
| NotAProducer           (* "%s is not a producer of %r" *)
| MoreProducersFinished  (* "More producers finished that registered" *)
| NoDropCompleted        (* "doesn't have a 'dropCompleted' method" *)
| NoStreamingMethods     (* "doesn't have a 'dropCompleted' and/or 'dataWritten' method" *)
| AlreadyStreaming       (* "already registered as a streaming consumer" *)
| AlreadyNormal          (* "already registered as a normal consumer" *)
| NoStreamingInputs      (* "BarrierAppDROPs don't accept streaming inputs" *)
| CircularDependency     (* "Circular dependency between DROPs" *)
| NotUnderDirectory      (* "Child DROP is not under %s" *)
| ChildTypeError         (* TypeError: child is no FileDROP or DirectoryContainer *)
| RecursionLimit         (* RuntimeError: maximum recursion depth exceeded *)
| IOError                (* raised by the I/O back-end *)
| ValueError             (* buffer(): "size must be zero or positive" *)
| AttributeError         (* the object has no such method *)
| AppError (msg : string).

(** A call returns, raises, or is still spinning in a loop whose exit
    depends on a random draw that has not come. *)
Inductive Result (A : Type) : Type :=
| Returns (a : A)
| Raises (e : Exn)
| Spins.
Arguments Returns {A} a.
Arguments Raises {A} e.
Arguments Spins {A}.

(** State and exceptions together: a method of an object of type [S]. *)
Definition Method (S A : Type) : Type := S -> S * Result A.

Definition ret {S A} (a : A) : Method S A := fun s => (s, Returns a).
Definition raise {S A} (e : Exn) : Method S A := fun s => (s, Raises e).
Definition bind {S A B} (m : Method S A) (k : A -> Method S B) : Method S B :=
  fun s =>
    match m s with
    | (s', Returns a) => k a s'
    | (s', Raises e) => (s', Raises e)
    | (s', Spins) => (s', Spins)
    end.
Definition modify {S} (f : S -> S) : Method S unit := fun s => (f s, Returns tt).

Notation "'do' x <- m ; k" := (bind m (fun x => k))
  (at level 10, x name, m at level 100, k at level 200).
Notation "'do_' m ; k" := (bind m (fun _ => k))
  (at level 10, m at level 100, k at level 200).

(** ** Protocol constants *)

(** Modelled from the spec: the enumerations of [dfms.ddap_protocol],
    which is not part of this development. The spec lists the values of
    the status and of the execution status; the other names are those
    the code uses. *)
Inductive DROPStates : Type :=
| INITIALIZED | WRITING | COMPLETED | EXPIRED | DELETED | ERROR.

Module AppDROPStates.
Inductive t : Type := NOT_RUN | RUNNING | FINISHED | ERROR | CANCELLED.
End AppDROPStates.

Module ExecutionMode.
Inductive t : Type := DROP | EXTERNAL.
End ExecutionMode.

Inductive ChecksumTypes : Type := CRC_32 | CRC_32C.

(** Modelled from the spec: the open modes of [dfms.io]. *)
Inductive OpenMode : Type := OPEN_WRITE | OPEN_READ.

#[global] Instance DROPStates_eq_dec : EqDecision DROPStates.
Proof. solve_decision. Defined.
#[global] Instance AppDROPStates_eq_dec : EqDecision AppDROPStates.t.
Proof. solve_decision. Defined.
#[global] Instance ExecutionMode_eq_dec : EqDecision ExecutionMode.t.
Proof. solve_decision. Defined.

(** ** Events *)

(** Modelled from the spec: the event broadcaster
    ([dfms.events.event_broadcaster.LocalEventBroadcaster]), which is
    not part of this development. It delivers every fired event
    synchronously and in firing order, and a failing callback does not
    reach the caller of [fire]. An object therefore keeps the list of
    the events it has fired, oldest first. *)
Inductive Event : Type :=
| StatusEvent (status : DROPStates)
| OpenEvent
| ExecStatusEvent (execStatus : AppDROPStates.t)
| ContainerIpEvent (containerIp : string).

(** Calls made on the streaming consumers of a node, oldest first. *)
Inductive Call : Type :=
| DataWritten (consumer : string) (uid : string) (data : list byte)
| DropCompleted (consumer : string) (uid : string).

(** ** I/O back-ends *)

(** Modelled from the spec: the [dfms.io] classes ([FileIO], [MemoryIO],
    [NgasIO], [NullIO], [ErrorIO]) behind [getIO], which are not part of
    this development. [open] acquires the resource or fails with an I/O
    error; [write] returns the number of bytes actually persisted, which
    here may depend on what the store already holds and on the data
    offered; [read] returns up to the requested number of bytes from the
    reader's offset. *)
Record Backend : Type := mkBackend {
  open_ok : OpenMode -> bool;
  write_result : list byte -> list byte -> Z
}.

(** A store that takes everything it is given, as [MemoryIO] does. *)
Definition memory_backend : Backend :=
  mkBackend (fun _ => true) (fun _ data => Z.of_nat (length data)).

(** A store that persists at most [room] bytes of each write. *)
Definition short_backend (room : Z) : Backend :=
  mkBackend (fun _ => true)
            (fun _ data => Z.min room (Z.of_nat (length data))).

(** [buffer(data, 0, size)] of Python 2: [size = -1] means up to the end,
    any other negative size is refused, a size past the end is cut. *)
Definition py_buffer (data : list byte) (size : Z) : Exn + list byte :=
  if decide (size = -1) then inr data
  else if decide (size < 0) then inl ValueError
  else inr (take (Z.to_nat size) data).

(** * The data node ([AbstractDROP]) *)

Module Drop.

Record DROP : Type := mkDROP {
  _oid : string;
  _uid : string;
  _status : DROPStates;
  _expectedSize : Z;
  _size : option Z;                    (* [None] until the first write *)
  _checksum : option Z;
  _checksumType : option ChecksumTypes;
  _wio : bool;                         (* the writing I/O object exists *)
  _rios : gmap Z nat;                  (* descriptor -> offset of its reader *)
  _refCount : Z;
  _producers : list string;            (* [p.uid for p in self._producers] *)
  _finishedProducers : gset string;
  _streamingConsumers : list string;
  backend : Backend;
  stored : list byte;                  (* what the back-end has persisted *)
  fired : list Event;
  called : list Call
}.

(** Attribute writes. *)
Definition set_status (v : DROPStates) (d : DROP) : DROP :=
  mkDROP (_oid d) (_uid d) v (_expectedSize d) (_size d) (_checksum d)
    (_checksumType d) (_wio d) (_rios d) (_refCount d) (_producers d)
    (_finishedProducers d) (_streamingConsumers d) (backend d) (stored d)
    (fired d) (called d).
Definition set_size (v : option Z) (d : DROP) : DROP :=
  mkDROP (_oid d) (_uid d) (_status d) (_expectedSize d) v (_checksum d)
    (_checksumType d) (_wio d) (_rios d) (_refCount d) (_producers d)
    (_finishedProducers d) (_streamingConsumers d) (backend d) (stored d)
    (fired d) (called d).
Definition set_checksum (v : option Z) (d : DROP) : DROP :=
  mkDROP (_oid d) (_uid d) (_status d) (_expectedSize d) (_size d) v
    (_checksumType d) (_wio d) (_rios d) (_refCount d) (_producers d)
    (_finishedProducers d) (_streamingConsumers d) (backend d) (stored d)
    (fired d) (called d).
Definition set_checksumType (v : option ChecksumTypes) (d : DROP) : DROP :=
  mkDROP (_oid d) (_uid d) (_status d) (_expectedSize d) (_size d)
    (_checksum d) v (_wio d) (_rios d) (_refCount d) (_producers d)
    (_finishedProducers d) (_streamingConsumers d) (backend d) (stored d)
    (fired d) (called d).
Definition set_wio (v : bool) (d : DROP) : DROP :=
  mkDROP (_oid d) (_uid d) (_status d) (_expectedSize d) (_size d)
    (_checksum d) (_checksumType d) v (_rios d) (_refCount d) (_producers d)
    (_finishedProducers d) (_streamingConsumers d) (backend d) (stored d)
    (fired d) (called d).
Definition set_rios (v : gmap Z nat) (d : DROP) : DROP :=
  mkDROP (_oid d) (_uid d) (_status d) (_expectedSize d) (_size d)
    (_checksum d) (_checksumType d) (_wio d) v (_refCount d) (_producers d)
    (_finishedProducers d) (_streamingConsumers d) (backend d) (stored d)
    (fired d) (called d).
Definition set_refCount (v : Z) (d : DROP) : DROP :=
  mkDROP (_oid d) (_uid d) (_status d) (_expectedSize d) (_size d)
    (_checksum d) (_checksumType d) (_wio d) (_rios d) v (_producers d)
    (_finishedProducers d) (_streamingConsumers d) (backend d) (stored d)
    (fired d) (called d).
Definition set_finishedProducers (v : gset string) (d : DROP) : DROP :=
  mkDROP (_oid d) (_uid d) (_status d) (_expectedSize d) (_size d)
    (_checksum d) (_checksumType d) (_wio d) (_rios d) (_refCount d)
    (_producers d) v (_streamingConsumers d) (backend d) (stored d)
    (fired d) (called d).
Definition set_stored (v : list byte) (d : DROP) : DROP :=
  mkDROP (_oid d) (_uid d) (_status d) (_expectedSize d) (_size d)
    (_checksum d) (_checksumType d) (_wio d) (_rios d) (_refCount d)
    (_producers d) (_finishedProducers d) (_streamingConsumers d)
    (backend d) v (fired d) (called d).
Definition set_fired (v : list Event) (d : DROP) : DROP :=
  mkDROP (_oid d) (_uid d) (_status d) (_expectedSize d) (_size d)
    (_checksum d) (_checksumType d) (_wio d) (_rios d) (_refCount d)
    (_producers d) (_finishedProducers d) (_streamingConsumers d)
    (backend d) (stored d) v (called d).
Definition set_called (v : list Call) (d : DROP) : DROP :=
  mkDROP (_oid d) (_uid d) (_status d) (_expectedSize d) (_size d)
    (_checksum d) (_checksumType d) (_wio d) (_rios d) (_refCount d)
    (_producers d) (_finishedProducers d) (_streamingConsumers d)
    (backend d) (stored d) (fired d) v.

Definition Meth (A : Type) : Type := Method DROP A.

(** [self._fire(eventType, ...)] *)
Definition _fire (e : Event) : Meth unit :=
  modify (fun d => set_fired (fired d ++ [e]) d).

(** The [status] setter: nothing happens when the value is the current
    one; otherwise the value is stored and a 'status' event is fired. *)
Definition status_setter (value : DROPStates) : Meth unit :=
  fun d =>
    if decide (value = _status d) then (d, Returns tt)
    else (do_ modify (set_status value); _fire (StatusEvent value)) d.

Definition incrRefCount : Meth unit :=
  modify (fun d => set_refCount (_refCount d + 1) d).

Definition decrRefCount : Meth unit :=
  modify (fun d => set_refCount (_refCount d - 1) d).

Definition writable (s : DROPStates) : bool :=
  bool_decide (s = INITIALIZED) || bool_decide (s = WRITING).

(** The first of the random draws that is no key of [_rios]. *)
Fixpoint pick_descriptor (rios : gmap Z nat) (draws : list Z) : option Z :=
  match draws with
  | [] => None
  | z :: rest =>
      match rios !! z with
      | None => Some z
      | Some _ => pick_descriptor rios rest
      end
  end.

(** [open()]; [draws] are the successive values of
    [random.SystemRandom().randint(-sys.maxint - 1, sys.maxint)]. *)
Definition open (draws : list Z) : Meth Z :=
  fun d =>
    if negb (bool_decide (_status d = COMPLETED)) then (d, Raises NotCompleted)
    else if negb (open_ok (backend d) OPEN_READ) then (d, Raises IOError)
    else
      match pick_descriptor (_rios d) draws with
      | None => (d, Spins)
      | Some descriptor =>
          (do_ modify (fun d => set_rios (<[descriptor := 0%nat]> (_rios d)) d);
           do_ incrRefCount;
           do_ _fire OpenEvent;
           ret descriptor) d
      end.

Definition _checkStateAndDescriptor (descriptor : Z) : Meth unit :=
  fun d =>
    if negb (bool_decide (_status d = COMPLETED)) then (d, Raises NotCompleted)
    else
      match _rios d !! descriptor with
      | None => (d, Raises IllegalDescriptor)
      | Some _ => (d, Returns tt)
      end.

(** [close(descriptor)]: the count goes down before the reader is
    released. *)
Definition close (descriptor : Z) : Meth unit :=
  do_ _checkStateAndDescriptor descriptor;
  do_ decrRefCount;
  modify (fun d => set_rios (delete descriptor (_rios d)) d).

(** [read(descriptor, count)] *)
Definition read (descriptor : Z) (count : Z) : Meth (list byte) :=
  do_ _checkStateAndDescriptor descriptor;
  fun d =>
    let off := default 0%nat (_rios d !! descriptor) in
    let chunk := take (Z.to_nat count) (drop off (stored d)) in
    (set_rios (<[descriptor := (off + length chunk)%nat]> (_rios d)) d,
     Returns chunk).

(** [setCompleted()]; closing the writer leaves the node as it is. *)
Definition setCompleted : Meth unit :=
  fun d =>
    if negb (writable (_status d)) then (d, Raises CannotSetComplete)
    else
      (do_ status_setter COMPLETED;
       modify (fun d =>
         set_called
           (called d ++ map (fun ic => DropCompleted ic (_uid d))
                            (_streamingConsumers d)) d)) d.

Section Checksum.

(** The [crc32] the module imported: [crc32c.crc32] when that package is
    there, [binascii.crc32] otherwise. *)
Variable crc32 : list byte -> Z -> Z.
Variable checksumType_imported : ChecksumTypes.

Definition _updateChecksum (chunk : list byte) : Meth unit :=
  modify (fun d =>
    let d := match _checksum d with
             | None => set_checksumType (Some checksumType_imported)
                         (set_checksum (Some 0) d)
             | Some _ => d
             end in
    set_checksum (Some (crc32 chunk (default 0 (_checksum d)))) d).

(** [write(data)], statement by statement. *)

(** [if not self._wio: self._wio = self.getIO(); self._wio.open(OPEN_WRITE)] *)
Definition open_writer : Meth unit :=
  fun d =>
    if _wio d then (d, Returns tt)
    else
      let d := set_wio true d in
      if open_ok (backend d) OPEN_WRITE then (d, Returns tt)
      else (d, Raises IOError).

(** [nbytes = self._wio.write(data)] *)
Definition wio_write (data : list byte) : Meth Z :=
  fun d =>
    let nbytes := write_result (backend d) (stored d) data in
    (set_stored (stored d ++ take (Z.to_nat nbytes) data) d, Returns nbytes).

(** [if self._size is None: self._size = 0] and [self._size += nbytes] *)
Definition add_size (nbytes : Z) : Meth unit :=
  modify (fun d => set_size (Some (default 0 (_size d) + nbytes)) d).

(** The streaming consumers get [buffer(data, 0, nbytes)]. *)
Definition trigger_streamingConsumers (data : list byte) (nbytes : Z)
    : Meth unit :=
  fun d =>
    match _streamingConsumers d with
    | [] => (d, Returns tt)
    | consumers =>
        match py_buffer data nbytes with
        | inl e => (d, Raises e)
        | inr writtenData =>
            (set_called
               (called d ++ map (fun c => DataWritten c (_uid d) writtenData)
                                consumers) d,
             Returns tt)
        end
    end.

(** [WRITING], or [setCompleted()] once the expected size is there. *)
Definition advance_status : Meth unit :=
  fun d =>
    if decide (_expectedSize d > 0) then
      let remaining := _expectedSize d - default 0 (_size d) in
      if decide (remaining > 0) then status_setter WRITING d
      else setCompleted d
    else status_setter WRITING d.

Definition write (data : list byte) : Meth Z :=
  fun d =>
    if negb (writable (_status d)) then (d, Raises NoMoreWriting)
    else
      (do_ open_writer;
       do nbytes <- wio_write data;
       do_ add_size nbytes;
       do_ trigger_streamingConsumers data nbytes;
       do_ _updateChecksum data;
       do_ advance_status;
       ret nbytes) d.

End Checksum.

(** [producerFinished(uid)] *)
Definition producerFinished (uid : string) : Meth unit :=
  fun d =>
    if negb (bool_decide (uid ∈ _producers d)) then (d, Raises NotAProducer)
    else
      let nFinished := size (_finishedProducers d) in
      if decide (length (_producers d) <= nFinished)%nat
      then (d, Raises MoreProducersFinished)
      else
        let d := set_finishedProducers (_finishedProducers d ∪ {[uid]}) d in
        if decide (nFinished + 1 = length (_producers d))%nat
        then setCompleted d
        else (d, Returns tt).

(** ** Sequences of calls *)

(** Successive assignments to [status]. *)
Fixpoint assign (values : list DROPStates) (d : DROP) : DROP :=
  match values with
  | [] => d
  | v :: rest => assign rest (fst (status_setter v d))
  end.

(** The assigned values that differ from the status they replace. *)
Fixpoint changes (current : DROPStates) (values : list DROPStates)
    : list DROPStates :=
  match values with
  | [] => []
  | v :: rest =>
      if decide (v = current) then changes current rest
      else v :: changes v rest
  end.

(** Successive [read]s through one descriptor. *)
Fixpoint reads (descriptor : Z) (counts : list Z) : Meth (list (list byte)) :=
  match counts with
  | [] => ret []
  | count :: rest =>
      do chunk <- read descriptor count;
      do chunks <- reads descriptor rest;
      ret (chunk :: chunks)
  end.

(** The public operations on the data. *)
Inductive Op : Type :=
| Write (data : list byte)
| SetCompleted
| Open (draws : list Z)
| Read (descriptor count : Z)
| Close (descriptor : Z)
| ProducerFinished (uid : string).

Definition returned {A} (r : Result A) : bool :=
  match r with Returns _ => true | _ => false end.

Section Operations.

Variable crc32 : list byte -> Z -> Z.
Variable checksumType_imported : ChecksumTypes.

(** An operation, its mutations and whether it returned. *)
Definition apply (o : Op) (d : DROP) : DROP * bool :=
  match o with
  | Write data =>
      let (d', r) := write crc32 checksumType_imported data d in (d', returned r)
  | SetCompleted => let (d', r) := setCompleted d in (d', returned r)
  | Open draws => let (d', r) := open draws d in (d', returned r)
  | Read descriptor count =>
      let (d', r) := read descriptor count d in (d', returned r)
  | Close descriptor => let (d', r) := close descriptor d in (d', returned r)
  | ProducerFinished uid =>
      let (d', r) := producerFinished uid d in (d', returned r)
  end.

(** [path d ops d']: the operations [ops], each one successful, lead from
    [d] to [d']. *)
Inductive path : DROP -> list Op -> DROP -> Prop :=
| path_nil d : path d [] d
| path_cons d o d' ops d'' :
    apply o d = (d', true) -> path d' ops d'' -> path d (o :: ops) d''.

(** The state after [ops] when all of them return. *)
Fixpoint run_ops (ops : list Op) (d : DROP) : option DROP :=
  match ops with
  | [] => Some d
  | o :: rest =>
      match apply o d with
      | (d', true) => run_ops rest d'
      | (_, false) => None
      end
  end.

Definition after (ops : list Op) (d : DROP) : DROP :=
  default d (run_ops ops d).

End Operations.

(** The order [INITIALIZED < WRITING < COMPLETED]. *)
Definition status_le (a b : DROPStates) : bool :=
  match a, b with
  | INITIALIZED, (INITIALIZED | WRITING | COMPLETED) => true
  | WRITING, (WRITING | COMPLETED) => true
  | COMPLETED, COMPLETED => true
  | _, _ => false
  end.

(** ** Relations between states, for the properties below *)

(** What one call can do to the status: leave it, or move a node that
    is still writable to [WRITING] or [COMPLETED]. *)
Definition advances (s s' : DROPStates) : Prop :=
  s' = s \/ (writable s = true /\ (s' = WRITING \/ s' = COMPLETED)).

(** From a state in [P], the method ends in a state in [Q], whether it
    returns or raises. *)
Definition ends {A} (P : DROP -> Prop) (m : Meth A) (Q : DROP -> Prop) : Prop :=
  forall d, P d -> Q (fst (m d)).

(** A method moves the status forward, whatever its outcome. *)
Definition forward {A} (m : Meth A) : Prop :=
  forall d, advances (_status d) (_status (fst (m d))).

(** The fields that hold the data and what is known about it. *)
Definition same_data (d d' : DROP) : Prop :=
  stored d' = stored d /\ _size d' = _size d /\ _checksum d' = _checksum d
  /\ backend d' = backend d.

(** A node as [__init__] leaves it. *)
Definition new (oid uid : string) (expectedSize : Z) (io : Backend)
    (producers streamingConsumers : list string) : DROP :=
  mkDROP oid uid INITIALIZED expectedSize None None None false ∅ 0
         producers ∅ streamingConsumers io [] [] [].

(** ** The rest of the data node *)


(** The [size], [checksum] and [checksumType] setters: a value that is
    there is not overwritten, and none is taken before the node has left
    [INITIALIZED] and [WRITING]. The exceptions are plain [Exception]s
    with these messages. *)
Definition already_set (what : string) : Exn :=
  AppError (String.append what " is already set, cannot overwrite with new value").
Definition not_fully_written (what : string) : Exn :=
  AppError (String.append "still not fully written, cannot manually set " what).

Definition size_setter (size : Z) : Meth unit :=
  fun d =>
    match _size d with
    | Some _ => (d, Raises (already_set "size"))
    | None =>
        if writable (_status d) then (d, Raises (not_fully_written "size"))
        else (set_size (Some size) d, Returns tt)
    end.

Definition checksum_setter (value : Z) : Meth unit :=
  fun d =>
    match _checksum d with
    | Some _ => (d, Raises (already_set "checksum"))
    | None =>
        if writable (_status d) then (d, Raises (not_fully_written "checksum"))
        else (set_checksum (Some value) d, Returns tt)
    end.

Definition checksumType_setter (value : ChecksumTypes) : Meth unit :=
  fun d =>
    match _checksumType d with
    | Some _ => (d, Raises (already_set "checksum type"))
    | None =>
        if writable (_status d)
        then (d, Raises (not_fully_written "checksum type"))
        else (set_checksumType (Some value) d, Returns tt)
    end.

Section MoreOperations.

Variable crc32 : list byte -> Z -> Z.
Variable checksumType_imported : ChecksumTypes.

(** A client that goes on with the next operation whether the last one
    returned or raised. *)
Fixpoint perform (ops : list Op) (d : DROP) : DROP :=
  match ops with
  | [] => d
  | o :: rest => perform rest (fst (apply crc32 checksumType_imported o d))
  end.

(** The node as [write] has it when it comes to the status: the writer
    is there, the back-end has taken its share of [data], the size, the
    streaming consumers and the checksum are served. *)
Definition written (data : list byte) (d : DROP) : DROP :=
  let n := write_result (backend d) (stored d) data in
  let d1 := set_wio true d in
  let d2 := set_stored (stored d ++ take (Z.to_nat n) data) d1 in
  let d3 := set_size (Some (default 0 (_size d) + n)) d2 in
  let d4 := fst (trigger_streamingConsumers data n d3) in
  fst (_updateChecksum crc32 checksumType_imported data d4).

End MoreOperations.

(** Successive [producerFinished] calls, one per uid. *)
Fixpoint producersFinished (uids : list string) (d : DROP) : DROP :=
  match uids with
  | [] => d
  | uid :: rest => producersFinished rest (fst (producerFinished uid d))
  end.




(** The node knows the size and the checksum of its data. *)
Definition described (d : DROP) : Prop :=
  is_Some (_size d) /\ is_Some (_checksum d).







End Drop.


(** ** The fallback checksum

    [binascii.crc32(data, crc)] of Python 2: the reflected CRC-32 with
    polynomial [0xEDB88320], started from [crc], returned as a signed
    32-bit integer. *)

Module Binascii.

Definition crc32_shift (c : Z) : Z :=
  if Z.testbit c 0 then Z.lxor (Z.shiftr c 1) 0xEDB88320 else Z.shiftr c 1.

Definition crc32_byte (c : Z) (b : byte) : Z :=
  Nat.iter 8 crc32_shift (Z.lxor c (Z.of_N (Byte.to_N b))).

Definition signed32 (z : Z) : Z :=
  if decide (z < 2 ^ 31) then z else z - 2 ^ 32.

Definition crc32 (data : list byte) (crc : Z) : Z :=
  let c := fold_left crc32_byte data (Z.lxor (crc mod 2 ^ 32) 0xFFFFFFFF) in
  signed32 (Z.lxor c 0xFFFFFFFF).

End Binascii.

(** * Consumers of a node ([addConsumer], [addStreamingConsumer]) and the
      back-references [addInput], [addStreamingInput]

    One node and the objects that may be handed to it as consumers. The
    node and an application call each other, so every call takes one
    unit of [fuel], the room left on the Python call stack. *)

Module Wiring.

(** What can be passed as a consumer: an application, or another object
    with or without the two callbacks and without back-reference
    methods. *)
Inductive ConsumerClass : Type :=
| PlainObject (hasDropCompleted hasDataWritten : bool)
| AppDROP
| BarrierAppDROP.

Definition hasattr_dropCompleted (c : ConsumerClass) : bool :=
  match c with PlainObject b _ => b | _ => true end.
Definition hasattr_dataWritten (c : ConsumerClass) : bool :=
  match c with PlainObject _ b => b | _ => true end.
Definition hasattr_addInput (c : ConsumerClass) : bool :=
  match c with PlainObject _ _ => false | _ => true end.
Definition hasattr_addStreamingInput (c : ConsumerClass) : bool :=
  match c with PlainObject _ _ => false | _ => true end.

Record Node : Type := mkNode {
  class_of : string -> ConsumerClass;
  _executionMode : ExecutionMode.t;
  _consumers : list string;
  _streamingConsumers : list string;
  (* applications whose [_inputs] / [_streamingInputs] hold this node *)
  input_of : list string;
  streamingInput_of : list string;
  (* consumers whose [dropCompleted] handler listens to 'status' events *)
  subscribed : list string
}.

Definition set_consumers (v : list string) (n : Node) : Node :=
  mkNode (class_of n) (_executionMode n) v (_streamingConsumers n)
         (input_of n) (streamingInput_of n) (subscribed n).
Definition set_streamingConsumers (v : list string) (n : Node) : Node :=
  mkNode (class_of n) (_executionMode n) (_consumers n) v
         (input_of n) (streamingInput_of n) (subscribed n).
Definition set_input_of (v : list string) (n : Node) : Node :=
  mkNode (class_of n) (_executionMode n) (_consumers n) (_streamingConsumers n)
         v (streamingInput_of n) (subscribed n).
Definition set_streamingInput_of (v : list string) (n : Node) : Node :=
  mkNode (class_of n) (_executionMode n) (_consumers n) (_streamingConsumers n)
         (input_of n) v (subscribed n).
Definition set_subscribed (v : list string) (n : Node) : Node :=
  mkNode (class_of n) (_executionMode n) (_consumers n) (_streamingConsumers n)
         (input_of n) (streamingInput_of n) v.

Definition mem (x : string) (l : list string) : bool := bool_decide (x ∈ l).

Fixpoint addConsumer (fuel : nat) (consumer : string) (n : Node)
    : Node * Result unit :=
  match fuel with
  | O => (n, Raises RecursionLimit)
  | S fuel =>
      if negb (hasattr_dropCompleted (class_of n consumer))
      then (n, Raises NoDropCompleted)
      else if mem consumer (_streamingConsumers n)
      then (n, Raises AlreadyStreaming)
      else if mem consumer (_consumers n)
      then (n, Returns tt)
      else
        let n := set_consumers (_consumers n ++ [consumer]) n in
        let backref :=
          if hasattr_addInput (class_of n consumer)
          then addInput fuel consumer n else (n, Returns tt) in
        match backref with
        | (n, Returns _) =>
            if decide (_executionMode n = ExecutionMode.EXTERNAL)
            then (n, Returns tt)
            else (set_subscribed (subscribed n ++ [consumer]) n, Returns tt)
        | (n, r) => (n, r)
        end
  end

with addInput (fuel : nat) (app : string) (n : Node) : Node * Result unit :=
  match fuel with
  | O => (n, Raises RecursionLimit)
  | S fuel =>
      if mem app (input_of n) then (n, Returns tt)
      else addConsumer fuel app (set_input_of (input_of n ++ [app]) n)
  end.

Fixpoint addStreamingConsumer (fuel : nat) (streamingConsumer : string)
    (n : Node) : Node * Result unit :=
  match fuel with
  | O => (n, Raises RecursionLimit)
  | S fuel =>
      if negb (hasattr_dropCompleted (class_of n streamingConsumer))
         || negb (hasattr_dataWritten (class_of n streamingConsumer))
      then (n, Raises NoStreamingMethods)
      else if mem streamingConsumer (_consumers n)
      then (n, Raises AlreadyNormal)
      else if mem streamingConsumer (_streamingConsumers n)
      then (n, Returns tt)
      else
        let n := set_streamingConsumers
                   (_streamingConsumers n ++ [streamingConsumer]) n in
        if hasattr_addStreamingInput (class_of n streamingConsumer)
        then addStreamingInput fuel streamingConsumer n
        else (n, Returns tt)
  end

with addStreamingInput (fuel : nat) (app : string) (n : Node)
    : Node * Result unit :=
  match fuel with
  | O => (n, Raises RecursionLimit)
  | S fuel =>
      match class_of n app with
      | BarrierAppDROP => (n, Raises NoStreamingInputs)
      | _ =>
          if mem app (streamingInput_of n) then (n, Returns tt)
          else addStreamingConsumer fuel app
                 (set_streamingInput_of (streamingInput_of n ++ [app]) n)
      end
  end.

(** The calls a client can make on the node or on one of its
    applications. *)
Inductive Op : Type :=
| AddConsumer (c : string)
| AddStreamingConsumer (c : string)
| AddInput (app : string)
| AddStreamingInput (app : string).

Definition step (fuel : nat) (o : Op) (n : Node) : Node * Result unit :=
  match o with
  | AddConsumer c => addConsumer fuel c n
  | AddStreamingConsumer c => addStreamingConsumer fuel c n
  | AddInput a =>
      if hasattr_addInput (class_of n a) then addInput fuel a n
      else (n, Raises AttributeError)
  | AddStreamingInput a =>
      if hasattr_addStreamingInput (class_of n a) then addStreamingInput fuel a n
      else (n, Raises AttributeError)
  end.

(** A sequence of calls; a call that raises leaves its mutations behind
    and the client goes on with the next. *)
Fixpoint run (fuel : nat) (ops : list Op) (n : Node) : Node :=
  match ops with
  | [] => n
  | o :: rest => run fuel rest (fst (step fuel o n))
  end.

(** No object is in both lists. *)
Definition disjoint (n : Node) : Prop :=
  forall x, x ∈ _consumers n -> x ∈ _streamingConsumers n -> False.

(** The objects in the lists have the callbacks their list calls. *)
Definition callable (n : Node) : Prop :=
  (forall x, x ∈ _consumers n -> hasattr_dropCompleted (class_of n x) = true)
  /\ (forall x, x ∈ _streamingConsumers n ->
        hasattr_dropCompleted (class_of n x) = true
        /\ hasattr_dataWritten (class_of n x) = true).

Definition wired (n : Node) : Prop := disjoint n /\ callable n.

Definition new (classes : string -> ConsumerClass) (mode : ExecutionMode.t)
    : Node :=
  mkNode classes mode [] [] [] [] [].

(** ** More on the lists, for the properties at the end *)

(** No object is listed twice, and the consumers whose handler listens
    to 'status' events are all the consumers, or none when the execution
    is driven from outside. *)
Definition subscribed_once (n : Node) : Prop :=
  NoDup (_consumers n) /\ NoDup (_streamingConsumers n)
  /\ subscribed n
     = if decide (_executionMode n = ExecutionMode.EXTERNAL) then []
       else _consumers n.

(** An application that is a consumer has the node among its inputs,
    and one that is a streaming consumer has it among its streaming
    inputs. *)
Definition backreferenced (n : Node) : Prop :=
  (forall c, c ∈ _consumers n -> hasattr_addInput (class_of n c) = true ->
             c ∈ input_of n)
  /\ (forall c, c ∈ _streamingConsumers n -> class_of n c = AppDROP ->
                c ∈ streamingInput_of n).

Definition linked (n : Node) : Prop :=
  wired n /\ subscribed_once n /\ backreferenced n.

End Wiring.

(** * Parents and children ([parent] setter, [addChild])

    Objects live in a store and are named by references; the setter and
    [addChild] call each other, so every call takes one unit of [fuel],
    the room left on the Python call stack. *)

Module Parent.

Inductive DropClass : Type :=
| DataDROP                          (* InMemoryDROP, NgasDROP, NullDROP *)
| FileDROP (path : string)
| ContainerDROP                     (* also AppDROP and its subclasses *)
| DirectoryContainer (path : string).

Definition hasattr_addChild (c : DropClass) : bool :=
  match c with
  | ContainerDROP | DirectoryContainer _ => true
  | _ => false
  end.

Record Obj : Type := mkObj {
  class_of : DropClass;
  _parent : option nat;
  _children : list nat
}.

Record Store : Type := mkStore {
  obj : nat -> Obj;
  (* nodes for which "A parent is already set ..., overwriting with new
     value" was logged, oldest first *)
  warned : list nat
}.

Definition update (r : nat) (o : Obj) (st : Store) : Store :=
  mkStore (fun r' => if decide (r' = r) then o else obj st r') (warned st).

Definition set_parent (r : nat) (p : option nat) (st : Store) : Store :=
  update r (mkObj (class_of (obj st r)) p (_children (obj st r))) st.

Definition append_child (r child : nat) (st : Store) : Store :=
  update r (mkObj (class_of (obj st r)) (_parent (obj st r))
                  (_children (obj st r) ++ [child])) st.

Definition warn (r : nat) (st : Store) : Store :=
  mkStore (obj st) (warned st ++ [r]).

(** [os.path.dirname] of [posixpath]: the part up to the last slash,
    without its trailing slashes unless it is made of slashes only. *)
Definition is_slash (c : ascii) : bool := Ascii.eqb c "/"%char.

Fixpoint drop_while (f : ascii -> bool) (l : list ascii) : list ascii :=
  match l with
  | [] => []
  | c :: rest => if f c then drop_while f rest else l
  end.

Definition dirname (p : string) : string :=
  let rhead := drop_while (fun c => negb (is_slash c))
                          (rev (list_ascii_of_string p)) in
  let rhead := if forallb is_slash rhead then rhead
               else drop_while is_slash rhead in
  string_of_list_ascii (rev rhead).

(** [ContainerDROP.addChild(self, child)], given the setter to call. *)
Definition ContainerDROP_addChild
    (setter : nat -> option nat -> Store -> Store * Result unit)
    (self child : nat) (st : Store) : Store * Result unit :=
  if decide (Some child = _parent (obj st self))
  then (st, Raises CircularDependency)
  else setter child (Some self) (append_child self child st).

(** [child.parent = parent]: the setter. *)
Fixpoint parent_setter (fuel : nat) (self : nat) (parent : option nat)
    (st : Store) : Store * Result unit :=
  match fuel with
  | O => (st, Raises RecursionLimit)
  | S fuel =>
      match parent with
      | None => (st, Returns tt)
      | Some p =>
          let st := match _parent (obj st self) with
                    | Some _ => warn self st
                    | None => st
                    end in
          let prevParent := _parent (obj st self) in
          let st := set_parent self (Some p) st in
          if hasattr_addChild (class_of (obj st p)) then
            match addChild fuel p self st with
            | (st, Returns _) => (st, Returns tt)
            | (st, Spins) => (st, Spins)
            | (st, Raises _) => (set_parent self prevParent st, Returns tt)
            end
          else (st, Returns tt)
      end
  end

with addChild (fuel : nat) (self child : nat) (st : Store)
    : Store * Result unit :=
  match fuel with
  | O => (st, Raises RecursionLimit)
  | S fuel =>
      match class_of (obj st self) with
      | DirectoryContainer path =>
          match class_of (obj st child) with
          | FileDROP cpath | DirectoryContainer cpath =>
              if negb (String.eqb (dirname cpath) path)
              then (st, Raises NotUnderDirectory)
              else ContainerDROP_addChild (parent_setter fuel) self child st
          | _ => (st, Raises ChildTypeError)
          end
      | _ => ContainerDROP_addChild (parent_setter fuel) self child st
      end
  end.

(** The store at the moment the setter of [self] calls [p.addChild]. *)
Definition before_addChild (self p : nat) (st : Store) : Store :=
  set_parent self (Some p)
    match _parent (obj st self) with
    | Some _ => warn self st
    | None => st
    end.

(** The claim taken literally: once a parent is stored, assigning a
    different container leaves it in place. *)
Definition parent_write_once (fuel : nat) : Prop :=
  forall (st : Store) (self p q : nat),
    _parent (obj st self) = Some p -> q <> p ->
    _parent (obj (fst (parent_setter fuel self (Some q) st)) self) = Some p.

(** A data node 1 and containers everywhere else. *)
Definition one_node_store : Store :=
  mkStore (fun r => if decide (r = 1%nat) then mkObj DataDROP None []
                    else mkObj ContainerDROP None []) [].

(** How often [x] is listed in [l]. *)
Definition copies (x : nat) (l : list nat) : nat := count_occ Nat.eq_dec l x.

(** The class test of [parent.addChild(child)] as the setter reaches it:
    no [addChild] attribute on a data node, none but files and directories
    directly under its path for a [DirectoryContainer]. *)
Definition accepts (parent child : DropClass) : bool :=
  match parent with
  | ContainerDROP => true
  | DirectoryContainer path =>
      match child with
      | FileDROP cpath | DirectoryContainer cpath =>
          String.eqb (dirname cpath) path
      | _ => false
      end
  | _ => false
  end.




End Parent.

(** * The barrier application ([BarrierAppDROP]) *)

Module Barrier.

Record App : Type := mkApp {
  _uid : string;
  _status : DROPStates;
  _execStatus : AppDROPStates.t;
  _inputs : list string;               (* keys of the [_inputs] dictionary *)
  _completedInputs : list string;
  started : nat;                       (* daemon threads started on [execute] *)
  fired : list Event
}.

Definition set_status (v : DROPStates) (a : App) : App :=
  mkApp (_uid a) v (_execStatus a) (_inputs a) (_completedInputs a)
        (started a) (fired a).
Definition set_execStatus (v : AppDROPStates.t) (a : App) : App :=
  mkApp (_uid a) (_status a) v (_inputs a) (_completedInputs a)
        (started a) (fired a).
Definition set_completedInputs (v : list string) (a : App) : App :=
  mkApp (_uid a) (_status a) (_execStatus a) (_inputs a) v
        (started a) (fired a).
Definition set_started (v : nat) (a : App) : App :=
  mkApp (_uid a) (_status a) (_execStatus a) (_inputs a) (_completedInputs a)
        v (fired a).
Definition set_fired (v : list Event) (a : App) : App :=
  mkApp (_uid a) (_status a) (_execStatus a) (_inputs a) (_completedInputs a)
        (started a) v.

Definition _fire (e : Event) (a : App) : App := set_fired (fired a ++ [e]) a.

(** The [status] setter inherited from [AbstractDROP]. *)
Definition status_setter (value : DROPStates) (a : App) : App :=
  if decide (value = _status a) then a
  else _fire (StatusEvent value) (set_status value a).

(** The [execStatus] setter of [AppDROP]. *)
Definition execStatus_setter (execStatus : AppDROPStates.t) (a : App) : App :=
  if decide (_execStatus a = execStatus) then a
  else _fire (ExecStatusEvent execStatus) (set_execStatus execStatus a).

(** [dropCompleted(uid)]; the base class method does nothing. *)
Definition dropCompleted (uid : string) (a : App) : App :=
  let a := set_completedInputs (_completedInputs a ++ [uid]) a in
  if decide (length (_completedInputs a) = length (_inputs a))
  then set_started (S (started a)) a
  else a.

(** Successive notifications. *)
Fixpoint dropCompleted_all (uids : list string) (a : App) : App :=
  match uids with
  | [] => a
  | uid :: rest => dropCompleted_all rest (dropCompleted uid a)
  end.

Section Execute.

(** [run] is what a subclass makes of it: it may change the application
    and it returns or raises. *)
Variable run : App -> App * Result unit.

(** [execute()]: [try] / [except: ...; raise] / [finally]. *)
Definition execute (a : App) : App * Result unit :=
  let a := execStatus_setter AppDROPStates.RUNNING a in
  match run a with
  | (a, Returns _) =>
      let a := execStatus_setter AppDROPStates.FINISHED a in
      (status_setter COMPLETED a, Returns tt)
  | (a, Raises e) =>
      let a := execStatus_setter AppDROPStates.ERROR a in
      (status_setter COMPLETED a, Raises e)
  | (a, Spins) => (a, Spins)
  end.

End Execute.

Definition new (uid : string) (inputs : list string) : App :=
  mkApp uid INITIALIZED AppDROPStates.NOT_RUN inputs [] 0 [].

End Barrier.

(** * Outputs of an application ([addOutput], [addProducer]) *)

Module Outputs.

(** What [addOutput] is given: the application itself, or a data node,
    known by reference. *)
Inductive Arg : Type := Self | Ref (r : nat).

Record Graph : Type := mkGraph {
  app : Barrier.App;
  (* the [_outputs] ordered dictionary: uid and node, in insertion order *)
  _outputs : list (string * nat);
  (* the data nodes; a node holds its producers by uid, as in [Drop] *)
  node : nat -> Drop.DROP;
  (* the nodes whose [appFinished] listens to 'execStatus' events,
     oldest first *)
  subscribed : list nat
}.

Definition set_app (v : Barrier.App) (g : Graph) : Graph :=
  mkGraph v (_outputs g) (node g) (subscribed g).
Definition set_outputs (v : list (string * nat)) (g : Graph) : Graph :=
  mkGraph (app g) v (node g) (subscribed g).
Definition set_node (r : nat) (d : Drop.DROP) (g : Graph) : Graph :=
  mkGraph (app g) (_outputs g)
          (fun r' => if decide (r' = r) then d else node g r') (subscribed g).
Definition subscribe (r : nat) (g : Graph) : Graph :=
  mkGraph (app g) (_outputs g) (node g) (subscribed g ++ [r]).

(** [d[k] = v] on an ordered dictionary. *)
Fixpoint setitem (k : string) (v : nat) (d : list (string * nat))
    : list (string * nat) :=
  match d with
  | [] => [(k, v)]
  | (k', v') :: rest =>
      if String.eqb k' k then (k, v) :: rest
      else (k', v') :: setitem k v rest
  end.

Definition values (d : list (string * nat)) : list nat := map snd d.

(** [self._producers.append(producer)] *)
Definition append_producer (producer : string) (d : Drop.DROP) : Drop.DROP :=
  Drop.mkDROP (Drop._oid d) (Drop._uid d) (Drop._status d)
    (Drop._expectedSize d) (Drop._size d) (Drop._checksum d)
    (Drop._checksumType d) (Drop._wio d) (Drop._rios d) (Drop._refCount d)
    (Drop._producers d ++ [producer]) (Drop._finishedProducers d)
    (Drop._streamingConsumers d) (Drop.backend d) (Drop.stored d)
    (Drop.fired d) (Drop.called d).

(** [self.addOutput(outputDrop)] of the application and
    [outputDrop.addProducer(self)] of the node [r]: each calls the other. *)
Fixpoint addOutput (fuel : nat) (outputDrop : Arg) (g : Graph)
    : Graph * Result unit :=
  match fuel with
  | O => (g, Raises RecursionLimit)
  | S fuel =>
      match outputDrop with
      | Self =>
          (g, Raises (AppError "Cannot add an AppConsumer as its own output"))
      | Ref r =>
          if bool_decide (r ∈ values (_outputs g)) then (g, Returns tt)
          else
            let uid := Drop._uid (node g r) in
            let g := set_outputs (setitem uid r (_outputs g)) g in
            match addProducer fuel r g with
            | (g, Returns _) => (subscribe r g, Returns tt)
            | (g, res) => (g, res)
            end
      end
  end

with addProducer (fuel : nat) (r : nat) (g : Graph) : Graph * Result unit :=
  match fuel with
  | O => (g, Raises RecursionLimit)
  | S fuel =>
      let producer := Barrier._uid (app g) in
      if bool_decide (producer ∈ Drop._producers (node g r))
      then (g, Returns tt)
      else
        let g := set_node r (append_producer producer (node g r)) g in
        addOutput fuel (Ref r) g
  end.

(** The listener [appFinished] that [addOutput] subscribes for
    [outputDrop], called with the [execStatus] of the event. *)
Definition appFinished (outputDrop : nat) (execStatus : AppDROPStates.t)
    (g : Graph) : Graph * Result unit :=
  match execStatus with
  | AppDROPStates.FINISHED | AppDROPStates.ERROR =>
      let (d, res) := Drop.producerFinished (Barrier._uid (app g))
                        (node g outputDrop) in
      (set_node outputDrop d g, res)
  | _ => (g, Returns tt)
  end.

(** Modelled from the spec: delivery of an 'execStatus' event by the event
    broadcaster, which is not part of this development: every listener is
    called, synchronously, and an exception raised by a listener is logged
    and swallowed. *)
Fixpoint deliver (listeners : list nat) (execStatus : AppDROPStates.t)
    (g : Graph) : Graph :=
  match listeners with
  | [] => g
  | l :: rest => deliver rest execStatus (fst (appFinished l execStatus g))
  end.

(** The [execStatus] setter, with its listeners. *)
Definition execStatus_setter (execStatus : AppDROPStates.t) (g : Graph)
    : Graph :=
  if decide (Barrier._execStatus (app g) = execStatus) then g
  else deliver (subscribed g) execStatus
         (set_app (Barrier.execStatus_setter execStatus (app g)) g).

Section Execute.

(** [run] may write to the outputs. *)
Variable run : Graph -> Graph * Result unit.

(** [BarrierAppDROP.execute()] on the application with its outputs. *)
Definition execute (g : Graph) : Graph * Result unit :=
  let g := execStatus_setter AppDROPStates.RUNNING g in
  match run g with
  | (g, Returns _) =>
      let g := execStatus_setter AppDROPStates.FINISHED g in
      (set_app (Barrier.status_setter COMPLETED (app g)) g, Returns tt)
  | (g, Raises e) =>
      let g := execStatus_setter AppDROPStates.ERROR g in
      (set_app (Barrier.status_setter COMPLETED (app g)) g, Raises e)
  | (g, Spins) => (g, Spins)
  end.

End Execute.

(** ** Sequences of calls *)

Inductive Op : Type :=
| AddOutput (r : nat)       (* [app.addOutput(node r)] *)
| AddProducer (r : nat).    (* [(node r).addProducer(app)] *)


Definition step (fuel : nat) (g : Graph) (op : Op) : Graph :=
  match op with
  | AddOutput r => fst (addOutput fuel (Ref r) g)
  | AddProducer r => fst (addProducer fuel r g)
  end.

Definition build (fuel : nat) (ops : list Op) (g : Graph) : Graph :=
  fold_left (step fuel) ops g.

(** An application without inputs or outputs, beside the nodes [nodes]. *)
Definition new (uid : string) (nodes : nat -> Drop.DROP) : Graph :=
  mkGraph (Barrier.new uid []) [] nodes [].


(** The application is the last producer of [d] that has not finished. *)
Definition awaits (uid : string) (d : Drop.DROP) : Prop :=
  uid ∈ Drop._producers d
  /\ (size (Drop._finishedProducers d) + 1 = length (Drop._producers d))%nat
  /\ Drop.writable (Drop._status d) = true.

End Outputs.

(** * The container application ([DockerApp]) *)

Module Docker.

(** [sub in s] on strings. *)
Fixpoint contains (sub s : string) : bool :=
  String.prefix sub s ||
  match s with
  | EmptyString => false
  | String _ rest => contains sub rest
  end.

(** [s.replace(old, new)]: every occurrence of [old], left to right and
    without overlap; [skip] counts the characters of a match still to be
    passed over. *)
Fixpoint replace_from (skip : nat) (old new s : string) : string :=
  match s with
  | EmptyString => EmptyString
  | String c rest =>
      match skip with
      | S k => replace_from k old new rest
      | O =>
          if String.prefix old s
          then String.append new (replace_from (String.length old - 1) old new rest)
          else String c (replace_from 0 old new rest)
      end
  end.

Definition replace (old new s : string) : string :=
  match old with
  | EmptyString =>
      String.append new
        (String.concat EmptyString (map (fun c => String c new) (list_ascii_of_string s)))
  | _ => replace_from 0 old new s
  end.

(** ['%containerIp[{0}]%'.format(x)] *)
Definition placeholder (x : string) : string :=
  String.append "%containerIp[" (String.append x "]%").

(** A drop as [handleInterest] sees it. *)
Record Drop : Type := mkDrop {
  oid : string;
  uid : string;
  isDockerApp : bool                   (* [isinstance(drop, DockerApp)] *)
}.

(** [ContainerIpWaiter]: the uid of its target and, once the target has
    fired 'containerIp', the address it carried. *)
Record ContainerIpWaiter : Type := mkWaiter {
  w_uid : string;
  w_containerIp : option string
}.

Definition ContainerIpWaiter_init (drop : Drop) : ContainerIpWaiter :=
  mkWaiter (uid drop) None.

Definition handleEvent (containerIp : string) (w : ContainerIpWaiter)
    : ContainerIpWaiter :=
  mkWaiter (w_uid w) (Some containerIp).

(** [waitForIp()] without timeout: no answer before the event is set. *)
Definition waitForIp (w : ContainerIpWaiter) : option (string * string) :=
  match w_containerIp w with
  | Some ip => Some (w_uid w, ip)
  | None => None
  end.

Record DockerApp : Type := mkDockerApp {
  self : Drop;
  _command : string;
  _waiters : list ContainerIpWaiter
}.

(** [handleInterest(drop)] *)
Definition handleInterest (drop : Drop) (app : DockerApp) : DockerApp :=
  if isDockerApp drop && contains (placeholder (uid drop)) (_command app)
  then mkDockerApp (self app) (_command app)
                   (_waiters app ++ [ContainerIpWaiter_init drop])
  else app.

(** The target [drop] sets its [containerIp]: the event reaches the
    waiters subscribed to it. *)
Definition containerIp_published (drop : Drop) (ip : string) (app : DockerApp)
    : DockerApp :=
  mkDockerApp (self app) (_command app)
    (map (fun w => if String.eqb (w_uid w) (uid drop) then handleEvent ip w else w)
         (_waiters app)).

(** The loop of [run] over the waiters: [None] while a waiter blocks. *)
Fixpoint replace_ips (waiters : list ContainerIpWaiter) (cmd : string)
    : option string :=
  match waiters with
  | [] => Some cmd
  | waiter :: rest =>
      match waitForIp waiter with
      | None => None
      | Some (uid, ip) => replace_ips rest (replace (placeholder uid) ip cmd)
      end
  end.

Section Run.

(** [droputils.replace_path_placeholders] followed by
    [droputils.replace_dataurl_placeholders], with the inputs and outputs
    of the application: they are not part of this development. *)
Variable replace_placeholders : string -> string.

(** The command line [run] has after the loop over the waiters; [None]
    while it blocks there. *)
Definition run_command (app : DockerApp) : option string :=
  replace_ips (_waiters app) (replace_placeholders (_command app)).

End Run.

(** [handleInterest] called with each of [drops], then the 'containerIp'
    events of [pubs], in order. *)
Definition declare (drops : list Drop) (app : DockerApp) : DockerApp :=
  fold_left (fun a d => handleInterest d a) drops app.

Definition publish (pubs : list (Drop * string)) (app : DockerApp)
    : DockerApp :=
  fold_left (fun a p => containerIp_published (fst p) (snd p) a) pubs app.

(** [handleInterest(drop)] registers a waiter. *)
Definition interesting (cmd : string) (drop : Drop) : bool :=
  isDockerApp drop && contains (placeholder (uid drop)) cmd.

(** ** Additional volume bindings *)

(** [s.split(sep)] for a separator of one character. *)
Fixpoint split (sep : ascii) (s : string) : list string :=
  match s with
  | EmptyString => [EmptyString]
  | String c rest =>
      if Ascii.eqb c sep then EmptyString :: split sep rest
      else match split sep rest with
           | [] => [String c EmptyString]
           | first :: others => String c first :: others
           end
  end.

Inductive BindingError : Type :=
| ValueError_unpack                      (* too many values to unpack *)
| InvalidDropException (host_path : string).

(** The host path and the container path of one of the
    [additionalBindings] of [initialize]. *)
Definition parse_binding (binding : string)
    : BindingError + (string * string) :=
  if negb (contains ":" binding) then inr (binding, binding)
  else match split ":" binding with
       | [host_path; container_path] => inr (host_path, container_path)
       | _ => inl ValueError_unpack
       end.

(** [host_path + ":" + container_path], the binding [run] hands to
    docker. *)
Definition bind_string (host_path container_path : string) : string :=
  String.append host_path (String.append ":" container_path).

Section Bindings.

(** [os.path.exists] *)
Variable exists_ : string -> bool.

(** The loop of [initialize] over the [additionalBindings], from the
    dictionary [bindings]. *)
Fixpoint additionalBindings (given : list string)
    (bindings : gmap string string) : BindingError + gmap string string :=
  match given with
  | [] => inr bindings
  | binding :: rest =>
      match parse_binding binding with
      | inl e => inl e
      | inr (host_path, container_path) =>
          if exists_ host_path
          then additionalBindings rest
                 (<[host_path := container_path]> bindings)
          else inl (InvalidDropException host_path)
      end
  end.

End Bindings.

End Docker.

(** * The dictionary form of a node ([dropdict]) *)

Module Dropdict.

(** What a dictionary holds under a key: a string such as an oid, a list,
    or something else. Lists are held by value: the lists the methods
    below append to are those they have created. *)
Inductive Value : Type :=
| Str (s : string)
| List (l : list Value)
| Other.

Notation dropdict := (gmap string Value).

Inductive Error : Type :=
| KeyError (key : string)
| AttributeError_append.      (* no [append] on what is not a list *)

(** [_addSomething(other, key)]: the dictionary it leaves and the
    exception it raises, if any. *)
Definition _addSomething (other : dropdict) (key : string) (self : dropdict)
    : dropdict * option Error :=
  let self := match self !! key with
              | None => <[key := List []]> self
              | Some _ => self
              end in
  match self !! key with
  | Some (List l) =>
      match other !! "oid" with
      | Some oid => (<[key := List (l ++ [oid])]> self, None)
      | None => (self, Some (KeyError "oid"))
      end
  | _ => (self, Some AttributeError_append)
  end.

Inductive Adder : Type :=
| addConsumer | addStreamingConsumer | addInput | addStreamingInput
| addOutput | addProducer.

#[global] Instance Adder_eq_dec : EqDecision Adder.
Proof. solve_decision. Defined.

Definition key_of (m : Adder) : string :=
  match m with
  | addConsumer => "consumers"
  | addStreamingConsumer => "streamingConsumers"
  | addInput => "inputs"
  | addStreamingInput => "streamingInputs"
  | addOutput => "outputs"
  | addProducer => "producers"
  end.

Definition call (m : Adder) (other : dropdict) (self : dropdict)
    : dropdict * option Error :=
  _addSomething other (key_of m) self.

(** Successive calls, whether they return or raise. *)
Definition calls (ops : list (Adder * dropdict)) (self : dropdict)
    : dropdict :=
  fold_left (fun d op => fst (call (fst op) (snd op) d)) ops self.

(** The oids of the calls of [m] among [ops] that were given one. *)
Definition oids (m : Adder) (ops : list (Adder * dropdict)) : list Value :=
  omap (fun op => if decide (fst op = m) then snd op !! "oid" else None) ops.

(** The list under the key of [m], empty when there is none. *)
Definition listed (m : Adder) (self : dropdict) : list Value :=
  match self !! key_of m with
  | Some (List l) => l
  | _ => []
  end.

(** The keys of the methods hold lists or nothing. *)
Definition listing (self : dropdict) : Prop :=
  forall m, self !! key_of m = None
            \/ exists l, self !! key_of m = Some (List l).

End Dropdict.

(** * Properties of the data node *)

Section DropProperties.

Import Drop.

Lemma last_cons_default {A} (l : list A) (x a b : A) :
  List.last (x :: l) a = List.last (x :: l) b.
Proof.
  revert x. induction l as [|y l IH]; intros x; [done|].
  change (List.last (y :: l) a = List.last (y :: l) b). apply IH.
Qed.

Lemma status_setter_same (d : DROP) :
  status_setter (_status d) d = (d, Returns tt).
Proof. unfold status_setter. by rewrite decide_True. Qed.

Lemma status_setter_other (v : DROPStates) (d : DROP) :
  v <> _status d ->
  status_setter v d
  = (set_fired (fired d ++ [StatusEvent v]) (set_status v d), Returns tt).
Proof. intros Hne. unfold status_setter. by rewrite decide_False. Qed.

Lemma status_setter_status (v : DROPStates) (d : DROP) :
  _status (fst (status_setter v d)) = v.
Proof.
  destruct (decide (v = _status d)) as [->|Hne].
  - by rewrite status_setter_same.
  - by rewrite status_setter_other.
Qed.

(** C9. Assigning to [status] the value it already has changes nothing
    and fires no event; over any sequence of assignments the events
    fired are exactly one 'status' event for each assignment that
    changed the value, in order, and the status ends at the last value
    assigned. *)
Theorem status_event_per_change (d : DROP) (values : list DROPStates) :
  status_setter (_status d) d = (d, Returns tt)
  /\ fired (assign values d)
     = fired d ++ map StatusEvent (changes (_status d) values)
  /\ (length (changes (_status d) values) <= length values)%nat
  /\ _status (assign values d) = List.last values (_status d).
Proof.
  split; [apply status_setter_same|].
  revert d. induction values as [|v rest IH]; intros d; simpl.
  - by rewrite app_nil_r.
  - destruct (decide (v = _status d)) as [Heq|Hne].
    + subst v. rewrite status_setter_same. simpl.
      destruct (IH d) as (Hf & Hl & Hs). repeat split; [done|lia|].
      rewrite Hs. by destruct rest.
    + rewrite (status_setter_other v d Hne). simpl.
      destruct (IH (set_fired (fired d ++ [StatusEvent v]) (set_status v d)))
        as (Hf & Hl & Hs). simpl in *.
      repeat split.
      * by rewrite Hf, <- app_assoc.
      * lia.
      * rewrite Hs. destruct rest; [done|]. apply last_cons_default.
Qed.

(** ** Status along a path of operations *)

Lemma advances_le (s s' : DROPStates) :
  status_le s s = true -> advances s s' -> status_le s s' = true.
Proof.
  intros Hs [->|[Hw [->| ->]]]; [done| |]; by destruct s.
Qed.

Lemma status_setter_advances (v : DROPStates) (d : DROP) :
  writable (_status d) = true -> v = WRITING \/ v = COMPLETED ->
  advances (_status d) (_status (fst (status_setter v d))).
Proof. intros Hw Hv. rewrite status_setter_status. by right. Qed.

Lemma setCompleted_status (d : DROP) :
  writable (_status d) = true ->
  _status (fst (setCompleted d)) = COMPLETED /\ snd (setCompleted d) = Returns tt.
Proof.
  intros Hw. unfold setCompleted. rewrite Hw. simpl.
  unfold bind. destruct (status_setter COMPLETED d) as [d' r] eqn:E.
  pose proof (status_setter_status COMPLETED d) as Hs. rewrite E in Hs.
  unfold status_setter in E. destruct (decide _); simpl in E;
    injection E as <- <-; simpl in *; done.
Qed.

Lemma setCompleted_advances (d : DROP) :
  advances (_status d) (_status (fst (setCompleted d))).
Proof.
  destruct (writable (_status d)) eqn:Hw.
  - right. split; [done|]. right. by apply setCompleted_status.
  - left. unfold setCompleted. by rewrite Hw.
Qed.

Lemma advances_trans (s1 s2 s3 : DROPStates) :
  advances s1 s2 -> advances s2 s3 -> advances s1 s3.
Proof.
  intros [->|[Hw H2]] H23; [exact H23|].
  right. split; [done|]. by destruct H23 as [->|[_ H3]].
Qed.

Lemma ends_bind {A B} (P R Q : DROP -> Prop) (m : Meth A) (k : A -> Meth B) :
  ends P m R -> (forall d, R d -> Q d) -> (forall a, ends R (k a) Q) ->
  ends P (bind m k) Q.
Proof.
  intros Hm HRQ Hk d HP. unfold bind. specialize (Hm d HP).
  destruct (m d) as [d' [a|e|]]; simpl in *; auto. by apply Hk.
Qed.

Lemma forward_bind {A B} (m : Meth A) (k : A -> Meth B) :
  forward m -> (forall a, forward (k a)) -> forward (bind m k).
Proof.
  intros Hm Hk d. unfold bind. specialize (Hm d).
  destruct (m d) as [d' [a|e|]]; simpl in *; try done.
  eapply advances_trans; [exact Hm | apply Hk].
Qed.

Lemma forward_same {A} (m : Meth A) :
  (forall d, _status (fst (m d)) = _status d) -> forward m.
Proof. intros H d. left. apply H. Qed.

Lemma forward_setCompleted : forward setCompleted.
Proof. intros d. apply setCompleted_advances. Qed.

Lemma forward_open draws : forward (open draws).
Proof.
  apply forward_same. intros d. unfold open.
  destruct (negb _); [done|]. destruct (negb _); [done|].
  by destruct (pick_descriptor _ _).
Qed.

Lemma forward_check descriptor : forward (_checkStateAndDescriptor descriptor).
Proof.
  apply forward_same. intros d. unfold _checkStateAndDescriptor.
  destruct (negb _); [done|]. by destruct (_rios d !! descriptor).
Qed.

Lemma forward_close descriptor : forward (close descriptor).
Proof.
  unfold close. apply forward_bind; [apply forward_check|]. intros _.
  apply forward_bind; by intros; apply forward_same.
Qed.

Lemma forward_read descriptor count : forward (read descriptor count).
Proof.
  unfold read. apply forward_bind; [apply forward_check|]. intros _.
  by apply forward_same.
Qed.

Lemma forward_producerFinished uid : forward (producerFinished uid).
Proof.
  intros d. unfold producerFinished.
  destruct (negb _); [by left|]. destruct (decide _); [by left|].
  destruct (decide _); [|by left].
  apply (setCompleted_advances
           (set_finishedProducers (_finishedProducers d ∪ {[uid]}) d)).
Qed.

Lemma forward_write crc32 cst data : forward (write crc32 cst data).
Proof.
  intros d0. unfold write. destruct (writable (_status d0)) eqn:Hw; [|by left].
  simpl.
  set (R := fun d => _status d = _status d0).
  set (Q := fun d => advances (_status d0) (_status d)).
  assert (forall d, R d -> Q d) as HRQ by (intros d Hd; left; exact Hd).
  assert (forall A (m : Meth A), (forall d, _status (fst (m d)) = _status d) ->
            ends R m R) as Hkeep.
  { intros A m H d Hd. unfold R. by rewrite H. }
  apply (ends_bind R R Q); [| exact HRQ | intros _ | done].
  { apply Hkeep. intros d. unfold open_writer.
    destruct (_wio d); [done|]. simpl. by destruct (open_ok _ _). }
  apply (ends_bind R R Q); [by apply Hkeep | exact HRQ | intros nbytes].
  apply (ends_bind R R Q); [by apply Hkeep | exact HRQ | intros _].
  apply (ends_bind R R Q); [| exact HRQ | intros _].
  { apply Hkeep. intros d. unfold trigger_streamingConsumers.
    destruct (_streamingConsumers d); [done|]. by destruct (py_buffer _ _). }
  apply (ends_bind R R Q); [| exact HRQ | intros _].
  { apply Hkeep. intros d. unfold _updateChecksum, modify. simpl.
    by destruct (_checksum d). }
  apply (ends_bind R Q Q); [| done | by intros _ d Hd].
  intros d Hd. unfold Q, R in *. rewrite <- Hd in *. unfold advance_status.
  assert (advances (_status d) (_status (fst (status_setter WRITING d)))) as HW
    by (apply status_setter_advances; auto).
  destruct (decide _); [destruct (decide _)|]; try exact HW.
  apply setCompleted_advances.
Qed.

Lemma forward_apply crc32 cst (o : Op) (d d' : DROP) (ok : bool) :
  apply crc32 cst o d = (d', ok) -> advances (_status d) (_status d').
Proof.
  intros H.
  assert (forall A (m : Meth A), forward m ->
            (let (d1, r) := m d in (d1, returned r)) = (d', ok) ->
            advances (_status d) (_status d')) as Hgen.
  { intros A m Hm E. specialize (Hm d). destruct (m d) as [d1 r].
    injection E as <- _. exact Hm. }
  destruct o; simpl in H; eapply Hgen; try exact H.
  - apply forward_write.
  - apply forward_setCompleted.
  - apply forward_open.
  - apply forward_read.
  - apply forward_close.
  - apply forward_producerFinished.
Qed.

Lemma path_status_le crc32 cst (d : DROP) (ops : list Op) (d' : DROP) :
  path crc32 cst d ops d' -> status_le (_status d) (_status d) = true ->
  status_le (_status d) (_status d') = true
  /\ status_le (_status d') (_status d') = true.
Proof.
  induction 1 as [d|d o d1 ops d2 Hstep Hpath IH]; intros Hd; [done|].
  apply forward_apply in Hstep.
  pose proof (advances_le _ _ Hd Hstep) as H1.
  assert (status_le (_status d1) (_status d1) = true) as H11.
  { destruct Hstep as [->|[_ [->| ->]]]; done. }
  destruct (IH H11) as [H12 H22]. split; [|done].
  destruct (_status d), (_status d1), (_status d2); done.
Qed.

Lemma run_ops_path crc32 cst (ops : list Op) (d d' : DROP) :
  run_ops crc32 cst ops d = Some d' -> path crc32 cst d ops d'.
Proof.
  revert d. induction ops as [|o rest IH]; intros d H; simpl in H.
  - injection H as <-. constructor.
  - destruct (apply crc32 cst o d) as [d1 [|]] eqn:E; [|done].
    econstructor; [exact E | by apply IH].
Qed.

(** C5. Along every path of successful public operations ([write],
    [setCompleted], [open], [read], [close], [producerFinished]) that
    starts from a node in [INITIALIZED], the status never goes down in
    the order [INITIALIZED < WRITING < COMPLETED]: a later status is at
    least any earlier one, and a node that is [COMPLETED] stays so. *)
Theorem status_never_decreases crc32 cst (d0 d1 d2 : DROP) (ops1 ops2 : list Op) :
  _status d0 = INITIALIZED ->
  path crc32 cst d0 ops1 d1 -> path crc32 cst d1 ops2 d2 ->
  status_le (_status d1) (_status d2) = true
  /\ (_status d1 = COMPLETED -> _status d2 = COMPLETED).
Proof.
  intros H0 P1 P2.
  destruct (path_status_le _ _ _ _ _ P1) as [_ H11]; [by rewrite H0|].
  destruct (path_status_le _ _ _ _ _ P2 H11) as [H12 _]. split; [done|].
  intros Hc. rewrite Hc in H12. by destruct (_status d2).
Qed.

Lemma status_never_decreases_witness :
  let d0 := new "a" "a1" (-1) memory_backend [] [] in
  let ops1 := [Write (list_byte_of_string "hello")] in
  let ops2 := [Write (list_byte_of_string "world"); SetCompleted;
               Open [7]; Read 7 4096; Close 7] in
  let d1 := after Binascii.crc32 CRC_32 ops1 d0 in
  let d2 := after Binascii.crc32 CRC_32 ops2 d1 in
  _status d0 = INITIALIZED
  /\ path Binascii.crc32 CRC_32 d0 ops1 d1
  /\ path Binascii.crc32 CRC_32 d1 ops2 d2
  /\ status_le (_status d1) (_status d2) = true
  /\ (_status d1 = COMPLETED -> _status d2 = COMPLETED).
Proof.
  intros d0 ops1 ops2 d1 d2.
  assert (_status d0 = INITIALIZED) as H0 by reflexivity.
  assert (path Binascii.crc32 CRC_32 d0 ops1 d1) as P1
    by (apply run_ops_path; vm_compute; reflexivity).
  assert (path Binascii.crc32 CRC_32 d1 ops2 d2) as P2
    by (apply run_ops_path; vm_compute; reflexivity).
  split; [exact H0|]. split; [exact P1|]. split; [exact P2|].
  exact (status_never_decreases Binascii.crc32 CRC_32 d0 d1 d2 ops1 ops2 H0 P1 P2).
Defined.

(** ** Reading *)

Lemma pick_descriptor_fresh (rios : gmap Z nat) (draws : list Z) :
  (exists z, z ∈ draws /\ rios !! z = None) ->
  exists descriptor,
    pick_descriptor rios draws = Some descriptor /\ rios !! descriptor = None.
Proof.
  induction draws as [|z rest IH]; intros (x & Hin & Hx).
  - by apply elem_of_nil in Hin.
  - simpl. destruct (rios !! z) eqn:Hz; [|by exists z].
    apply IH. exists x. split; [|done].
    apply elem_of_cons in Hin as [->|Hin]; [congruence|done].
Qed.

Lemma open_returns (d : DROP) (draws : list Z) (descriptor : Z) :
  _status d = COMPLETED -> open_ok (backend d) OPEN_READ = true ->
  pick_descriptor (_rios d) draws = Some descriptor ->
  open draws d
  = (set_fired (fired d ++ [OpenEvent])
       (set_refCount (_refCount d + 1)
          (set_rios (<[descriptor := 0%nat]> (_rios d)) d)),
     Returns descriptor).
Proof.
  intros Hs Hio Hp. unfold open. rewrite Hs, Hio, Hp. reflexivity.
Qed.

Lemma read_returns (d : DROP) (descriptor count : Z) (off : nat) :
  _status d = COMPLETED -> _rios d !! descriptor = Some off ->
  exists d' chunk off',
    read descriptor count d = (d', Returns chunk)
    /\ _status d' = COMPLETED /\ _rios d' !! descriptor = Some off'
    /\ _refCount d' = _refCount d.
Proof.
  intros Hs Hr. unfold read, bind, _checkStateAndDescriptor.
  rewrite Hs, Hr. simpl. do 3 eexists. split; [reflexivity|].
  simpl. split; [done|]. split; [apply lookup_insert_eq|done].
Qed.

Lemma reads_return (counts : list Z) (d : DROP) (descriptor : Z) (off : nat) :
  _status d = COMPLETED -> _rios d !! descriptor = Some off ->
  exists d' chunks off',
    reads descriptor counts d = (d', Returns chunks)
    /\ _status d' = COMPLETED /\ _rios d' !! descriptor = Some off'
    /\ _refCount d' = _refCount d.
Proof.
  revert d off. induction counts as [|count rest IH]; intros d off Hs Hr.
  - exists d, [], off. by repeat split.
  - destruct (read_returns d descriptor count off Hs Hr)
      as (d1 & chunk & off1 & E1 & Hs1 & Hr1 & Hc1).
    destruct (IH d1 off1 Hs1 Hr1) as (d2 & chunks & off2 & E2 & Hs2 & Hr2 & Hc2).
    exists d2, (chunk :: chunks), off2. simpl. unfold bind at 1. rewrite E1.
    unfold bind at 1. rewrite E2. simpl. repeat split; [done..|congruence].
Qed.

Lemma close_returns (d : DROP) (descriptor : Z) (off : nat) :
  _status d = COMPLETED -> _rios d !! descriptor = Some off ->
  close descriptor d
  = (set_rios (delete descriptor (_rios d))
       (set_refCount (_refCount d - 1) d), Returns tt).
Proof.
  intros Hs Hr. unfold close, bind, _checkStateAndDescriptor.
  rewrite Hs, Hr. reflexivity.
Qed.

(** C8. [open] fails on a node that is not [COMPLETED]. On a
    [COMPLETED] node whose back-end opens and for which a random draw
    outside the descriptors in use comes up, [open] returns a descriptor
    that was not in use and adds one to the reference count; then any
    number of [read]s through it return, and the [close] that follows
    returns and leaves the reference count at its value before [open]. *)
Theorem open_reads_close_refCount (d : DROP) (draws counts : list Z) :
  (_status d <> COMPLETED -> open draws d = (d, Raises NotCompleted))
  /\ (_status d = COMPLETED -> open_ok (backend d) OPEN_READ = true ->
      (exists z, z ∈ draws /\ _rios d !! z = None) ->
      exists d1 descriptor d2 chunks d3,
        open draws d = (d1, Returns descriptor)
        /\ _rios d !! descriptor = None
        /\ _refCount d1 = _refCount d + 1
        /\ reads descriptor counts d1 = (d2, Returns chunks)
        /\ close descriptor d2 = (d3, Returns tt)
        /\ _refCount d3 = _refCount d).
Proof.
  split.
  - intros Hs. unfold open. by rewrite bool_decide_false.
  - intros Hs Hio Hfresh.
    destruct (pick_descriptor_fresh _ _ Hfresh) as (descriptor & Hp & Hnew).
    pose proof (open_returns d draws descriptor Hs Hio Hp) as Eo.
    set (d1 := set_fired _ _) in Eo.
    destruct (reads_return counts d1 descriptor 0%nat) as
      (d2 & chunks & off & Er & Hs2 & Hr2 & Hc2);
      [done | apply lookup_insert_eq |].
    pose proof (close_returns d2 descriptor off Hs2 Hr2) as Ec.
    eexists d1, descriptor, d2, chunks, _.
    split_and!; [exact Eo | exact Hnew | done | exact Er | exact Ec |].
    simpl. rewrite Hc2. simpl. lia.
Qed.

Lemma open_reads_close_refCount_witness :
  let d := after Binascii.crc32 CRC_32
             [Write (list_byte_of_string "helloworld"); SetCompleted; Open [3]]
             (new "a" "a1" (-1) memory_backend [] []) in
  let draws := [3; 3; 12] in
  let counts := [4; 4; 4; 4] in
  _status d = COMPLETED /\ open_ok (backend d) OPEN_READ = true
  /\ (exists z, z ∈ draws /\ _rios d !! z = None)
  /\ exists d1 descriptor d2 chunks d3,
        open draws d = (d1, Returns descriptor)
        /\ _rios d !! descriptor = None
        /\ _refCount d1 = _refCount d + 1
        /\ reads descriptor counts d1 = (d2, Returns chunks)
        /\ close descriptor d2 = (d3, Returns tt)
        /\ _refCount d3 = _refCount d.
Proof.
  intros d draws counts.
  assert (_status d = COMPLETED) as Hs by (vm_compute; reflexivity).
  assert (open_ok (backend d) OPEN_READ = true) as Hio by (vm_compute; reflexivity).
  assert (exists z, z ∈ draws /\ _rios d !! z = None) as Hfresh.
  { exists 12. split; [unfold draws; set_solver | vm_compute; reflexivity]. }
  split; [exact Hs|]. split; [exact Hio|]. split; [exact Hfresh|].
  exact (proj2 (open_reads_close_refCount d draws counts) Hs Hio Hfresh).
Defined.

(** ** Writing *)

Lemma same_data_refl (d : DROP) : same_data d d.
Proof. by repeat split. Qed.

Lemma status_setter_same_data (v : DROPStates) (d : DROP) :
  same_data d (fst (status_setter v d)).
Proof.
  unfold status_setter. destruct (decide _); [apply same_data_refl|].
  by repeat split.
Qed.

Lemma setCompleted_same_data (d : DROP) : same_data d (fst (setCompleted d)).
Proof.
  unfold setCompleted. destruct (negb _); [apply same_data_refl|].
  unfold bind. pose proof (status_setter_same_data COMPLETED d) as H.
  destruct (status_setter COMPLETED d) as [d' [[]|e|]]; simpl in *; try done.
Qed.

Lemma advance_status_same_data (d : DROP) :
  same_data d (fst (advance_status d)).
Proof.
  unfold advance_status.
  destruct (decide _); [destruct (decide _)|];
    auto using status_setter_same_data, setCompleted_same_data.
Qed.

Lemma open_writer_same_data (d : DROP) : same_data d (fst (open_writer d)).
Proof.
  unfold open_writer. destruct (_wio d); [apply same_data_refl|].
  simpl. by destruct (open_ok _ _).
Qed.

Lemma trigger_same_data data nbytes (d : DROP) :
  same_data d (fst (trigger_streamingConsumers data nbytes d)).
Proof.
  unfold trigger_streamingConsumers.
  destruct (_streamingConsumers d); [apply same_data_refl|].
  destruct (py_buffer _ _); [apply same_data_refl|]. by repeat split.
Qed.

(** What a [write] that returns has done: the size grew by the count the
    back-end reported, the store by that many bytes of [data], and the
    checksum ran over the whole of [data]. *)
Lemma write_returns crc32 cst (data : list byte) (d d' : DROP) (n : Z) :
  write crc32 cst data d = (d', Returns n) ->
  n = write_result (backend d) (stored d) data
  /\ stored d' = stored d ++ take (Z.to_nat n) data
  /\ _size d' = Some (default 0 (_size d) + n)
  /\ _checksum d' = Some (crc32 data (default 0 (_checksum d))).
Proof.
  unfold write. destruct (negb _); [done|].
  unfold bind at 1. pose proof (open_writer_same_data d) as H1.
  destruct (open_writer d) as [d1 [[]|e|]]; [|done..]. simpl in H1.
  destruct H1 as (Hst1 & Hsz1 & Hck1 & Hbe1).
  unfold bind at 1. unfold wio_write at 1. rewrite Hst1, Hbe1.
  set (nbytes := write_result (backend d) (stored d) data).
  unfold bind at 1. unfold add_size at 1, modify at 1. simpl.
  unfold bind at 1.
  match goal with |- context [trigger_streamingConsumers data nbytes ?x] =>
    pose proof (trigger_same_data data nbytes x) as H2;
    destruct (trigger_streamingConsumers data nbytes x) as [d2 [[]|e|]];
      [|done..] end.
  simpl in H2. destruct H2 as (Hst2 & Hsz2 & Hck2 & Hbe2).
  unfold bind at 1. unfold _updateChecksum at 1, modify at 1.
  unfold bind at 1.
  match goal with |- context [advance_status ?x] =>
    pose proof (advance_status_same_data x) as H3;
    destruct (advance_status x) as [d3 [[]|e|]]; [|done..] end.
  unfold ret. intros [= <- <-]. simpl in H3.
  destruct H3 as (Hst3 & Hsz3 & Hck3 & Hbe3).
  rewrite Hst3, Hsz3, Hck3. simpl.
  set (init := fun x : DROP =>
         match _checksum x with
         | Some _ => x
         | None => set_checksumType (Some cst) (set_checksum (Some 0) x)
         end).
  assert (forall x, default 0 (_checksum (init x)) = default 0 (_checksum x)
                    /\ stored (init x) = stored x /\ _size (init x) = _size x)
    as Hinit.
  { intros x. unfold init. destruct (_checksum x) eqn:E; [|done].
    by rewrite E. }
  fold (init d2). destruct (Hinit d2) as (Hdef & Hsto & Hsiz).
  rewrite Hdef, Hsto, Hsiz, Hst2, Hsz2, Hck2. simpl. rewrite Hsz1, Hck1.
  done.
Qed.

Lemma py_buffer_prefix (data : list byte) (n : Z) :
  0 <= n -> py_buffer data n = inr (take (Z.to_nat n) data).
Proof.
  intros Hn. unfold py_buffer.
  rewrite decide_False by lia. by rewrite decide_False by lia.
Qed.

(** The streaming consumers are given the accepted bytes only. *)
Lemma trigger_prefix (data : list byte) (n : Z) (d : DROP) :
  0 <= n ->
  trigger_streamingConsumers data n d
  = (match _streamingConsumers d with
     | [] => d
     | consumers =>
         set_called
           (called d
            ++ map (fun c => DataWritten c (_uid d) (take (Z.to_nat n) data))
                   consumers) d
     end, Returns tt).
Proof.
  intros Hn. unfold trigger_streamingConsumers.
  destruct (_streamingConsumers d); [done|]. by rewrite py_buffer_prefix.
Qed.

(** The values of [binascii.crc32] under Python 2, and a running
    checksum. *)
Example crc32_values :
  Binascii.crc32 (list_byte_of_string "abcd") 0 = -310194927
  /\ Binascii.crc32 (list_byte_of_string "ab") 0 = -1635563411
  /\ Binascii.crc32 (list_byte_of_string "cd")
       (Binascii.crc32 (list_byte_of_string "ab") 0)
     = Binascii.crc32 (list_byte_of_string "abcd") 0.
Proof. split_and!; vm_compute; reflexivity. Qed.

(** C2. A short write: the back-end persists two of the four bytes
    offered. The size counts the two bytes, the streaming consumer gets
    the two bytes, and the checksum is the CRC of all four bytes, not of
    the two that were accepted. *)
Theorem write_short_checksum :
  let d := new "a" "a1" (-1) (short_backend 2) [] ["c"] in
  let abcd := list_byte_of_string "abcd" in
  let ab := list_byte_of_string "ab" in
  let d' := fst (write Binascii.crc32 CRC_32 abcd d) in
  snd (write Binascii.crc32 CRC_32 abcd d) = Returns 2
  /\ stored d' = ab
  /\ _size d' = Some 2
  /\ called d' = [DataWritten "c" "a1" ab]
  /\ _checksum d' = Some (Binascii.crc32 abcd 0)
  /\ _checksum d' <> Some (Binascii.crc32 ab 0).
Proof.
  intros d abcd ab d'.
  split_and!; try (vm_compute; reflexivity).
  vm_compute. discriminate.
Qed.

(** ** Producers *)

Lemma producerFinished_unknown (uid : string) (d : DROP) :
  uid ∉ _producers d -> producerFinished uid d = (d, Raises NotAProducer).
Proof. intros H. unfold producerFinished. by rewrite bool_decide_false. Qed.

Lemma producerFinished_full (uid : string) (d : DROP) :
  uid ∈ _producers d ->
  (length (_producers d) <= size (_finishedProducers d))%nat ->
  producerFinished uid d = (d, Raises MoreProducersFinished).
Proof.
  intros Hin Hfull. unfold producerFinished.
  rewrite bool_decide_true by done. simpl. by rewrite decide_True.
Qed.

(** A producer that had not reported yet: the node completes when it is
    the last one, and stays as it is otherwise. *)
Lemma producerFinished_new (uid : string) (d : DROP) :
  uid ∈ _producers d -> uid ∉ _finishedProducers d ->
  (size (_finishedProducers d) < length (_producers d))%nat ->
  writable (_status d) = true ->
  let d' := fst (producerFinished uid d) in
  snd (producerFinished uid d) = Returns tt
  /\ size (_finishedProducers d') = S (size (_finishedProducers d))
  /\ _status d'
     = if decide (S (size (_finishedProducers d)) = length (_producers d))
       then COMPLETED else _status d.
Proof.
  intros Hin Hnew Hlt Hw. unfold producerFinished.
  rewrite bool_decide_true by done. simpl.
  rewrite decide_False by lia. simpl.
  replace (size (_finishedProducers d) + 1)%nat
    with (S (size (_finishedProducers d))) by lia.
  set (d1 := set_finishedProducers _ d).
  assert (size (_finishedProducers d1) = S (size (_finishedProducers d))) as Hsz.
  { simpl. rewrite size_union by set_solver. rewrite size_singleton. lia. }
  destruct (decide _) as [Heq|Hne].
  - destruct (setCompleted_status d1 Hw) as [Hs Hr].
    split_and!; [done| |done].
    unfold setCompleted. change (_status d1) with (_status d). rewrite Hw.
    simpl. unfold bind, status_setter.
    destruct (decide (COMPLETED = _status d1)); exact Hsz.
  - by split_and!.
Qed.

(** C1. Two producers are registered and the first reports twice. The
    second report is not rejected: it returns, and it moves the node to
    [COMPLETED] although the second producer has never reported. *)
Theorem producerFinished_repeated_completes :
  let d := new "b" "b1" (-1) memory_backend ["p1"; "p2"] [] in
  let d1 := fst (producerFinished "p1" d) in
  let d2 := fst (producerFinished "p1" d1) in
  snd (producerFinished "p1" d) = Returns tt
  /\ _status d1 = INITIALIZED
  /\ snd (producerFinished "p1" d1) = Returns tt
  /\ _status d2 = COMPLETED
  /\ elements (_finishedProducers d2) = ["p1"].
Proof. intros d d1 d2. split_and!; vm_compute; reflexivity. Qed.

End DropProperties.

(** * Properties of the consumer lists *)

Section WiringProperties.

Import Wiring.

Lemma mem_true (x : string) (l : list string) : mem x l = true <-> x ∈ l.
Proof. unfold mem. apply bool_decide_eq_true. Qed.

Lemma mem_false (x : string) (l : list string) : mem x l = false <-> x ∉ l.
Proof. unfold mem. apply bool_decide_eq_false. Qed.

Lemma wired_add_consumer (c : string) (n : Node) :
  wired n -> c ∉ _streamingConsumers n ->
  hasattr_dropCompleted (class_of n c) = true ->
  wired (set_consumers (_consumers n ++ [c]) n).
Proof.
  intros [Hd [Hc Hs]] Hnew Hattr. split; [|split].
  - intros x Hx Hxs. simpl in *.
    apply elem_of_app in Hx as [Hx|Hx]; [by eapply Hd|].
    by apply list_elem_of_singleton in Hx as ->.
  - intros x Hx. simpl in *.
    apply elem_of_app in Hx as [Hx|Hx]; [by apply Hc|].
    by apply list_elem_of_singleton in Hx as ->.
  - exact Hs.
Qed.

Lemma wired_add_streaming (c : string) (n : Node) :
  wired n -> c ∉ _consumers n ->
  hasattr_dropCompleted (class_of n c) = true ->
  hasattr_dataWritten (class_of n c) = true ->
  wired (set_streamingConsumers (_streamingConsumers n ++ [c]) n).
Proof.
  intros [Hd [Hc Hs]] Hnew Hattr1 Hattr2. split; [|split].
  - intros x Hx Hxs. simpl in *.
    apply elem_of_app in Hxs as [Hxs|Hxs]; [by eapply Hd|].
    by apply list_elem_of_singleton in Hxs as ->.
  - exact Hc.
  - intros x Hx. simpl in *.
    apply elem_of_app in Hx as [Hx|Hx]; [by apply Hs|].
    by apply list_elem_of_singleton in Hx as ->.
Qed.

Lemma addConsumer_addInput_wired (fuel : nat) :
  (forall c n, wired n -> wired (fst (addConsumer fuel c n)))
  /\ (forall a n, wired n -> wired (fst (addInput fuel a n))).
Proof.
  induction fuel as [|fuel [IHc IHi]]; [by split|].
  split.
  - intros c n Hw. simpl.
    destruct (hasattr_dropCompleted (class_of n c)) eqn:Hattr; [|done]. simpl.
    destruct (mem c (_streamingConsumers n)) eqn:Hs; [done|].
    destruct (mem c (_consumers n)) eqn:Hc; [done|].
    apply mem_false in Hs.
    pose proof (wired_add_consumer c n Hw Hs Hattr) as Hw1.
    set (n1 := set_consumers _ n) in *.
    change (class_of n1 c) with (class_of n c).
    destruct (hasattr_addInput (class_of n c)).
    + specialize (IHi c n1 Hw1).
      destruct (addInput fuel c n1) as [n2 [[]|e|]]; simpl in *; try done.
      by destruct (decide _).
    + simpl. by destruct (decide _).
  - intros a n Hw. simpl.
    destruct (mem a (input_of n)); [done|]. by apply IHc.
Qed.

Lemma addStreaming_wired (fuel : nat) :
  (forall c n, wired n -> wired (fst (addStreamingConsumer fuel c n)))
  /\ (forall a n, wired n -> wired (fst (addStreamingInput fuel a n))).
Proof.
  induction fuel as [|fuel [IHc IHi]]; [by split|].
  split.
  - intros c n Hw. simpl.
    destruct (hasattr_dropCompleted (class_of n c)) eqn:Hattr1; [|done].
    destruct (hasattr_dataWritten (class_of n c)) eqn:Hattr2; [|done]. simpl.
    destruct (mem c (_consumers n)) eqn:Hc; [done|].
    destruct (mem c (_streamingConsumers n)) eqn:Hs; [done|].
    apply mem_false in Hc.
    pose proof (wired_add_streaming c n Hw Hc Hattr1 Hattr2) as Hw1.
    set (n1 := set_streamingConsumers _ n) in *.
    change (class_of n1 c) with (class_of n c).
    destruct (hasattr_addStreamingInput (class_of n c)); [|done].
    by apply IHi.
  - intros a n Hw. simpl.
    destruct (class_of n a); try done;
      (destruct (mem a (streamingInput_of n)); [done|]; by apply IHc).
Qed.

Lemma step_wired (fuel : nat) (o : Op) (n : Node) :
  wired n -> wired (fst (step fuel o n)).
Proof.
  intros Hw. destruct o as [c|c|a|a]; simpl.
  - by apply addConsumer_addInput_wired.
  - by apply addStreaming_wired.
  - destruct (hasattr_addInput _); [|done].
    by apply addConsumer_addInput_wired.
  - destruct (hasattr_addStreamingInput _); [|done].
    by apply addStreaming_wired.
Qed.

Lemma run_wired (fuel : nat) (ops : list Op) (n : Node) :
  wired n -> wired (run fuel ops n).
Proof.
  revert n. induction ops as [|o rest IH]; intros n Hw; [done|].
  simpl. apply IH. by apply step_wired.
Qed.

Lemma new_wired classes mode : wired (new classes mode).
Proof.
  split; [|split]; intros x Hx; simpl in Hx; by apply elem_of_nil in Hx.
Qed.

Lemma addConsumer_rejects_streaming (fuel : nat) (c : string) (n : Node) :
  c ∈ _streamingConsumers n ->
  addConsumer (S fuel) c n
  = (n, Raises (if hasattr_dropCompleted (class_of n c)
                then AlreadyStreaming else NoDropCompleted)).
Proof.
  intros Hc. simpl. destruct (hasattr_dropCompleted _); [|done]. simpl.
  apply mem_true in Hc. by rewrite Hc.
Qed.

Lemma addStreamingConsumer_rejects_normal (fuel : nat) (c : string) (n : Node) :
  c ∈ _consumers n ->
  addStreamingConsumer (S fuel) c n
  = (n, Raises (if hasattr_dropCompleted (class_of n c)
                   && hasattr_dataWritten (class_of n c)
                then AlreadyNormal else NoStreamingMethods)).
Proof.
  intros Hc. simpl.
  destruct (hasattr_dropCompleted _), (hasattr_dataWritten _); try done.
  simpl. apply mem_true in Hc. by rewrite Hc.
Qed.

(** The classes of the objects do not change. *)
Lemma addConsumer_addInput_class (fuel : nat) :
  (forall c n, class_of (fst (addConsumer fuel c n)) = class_of n)
  /\ (forall a n, class_of (fst (addInput fuel a n)) = class_of n).
Proof.
  induction fuel as [|fuel [IHc IHi]]; [by split|]. split.
  - intros c n. simpl. destruct (negb _); [done|].
    destruct (mem _ _); [done|]. destruct (mem _ _); [done|].
    destruct (hasattr_addInput _); [|simpl; by destruct (decide _)].
    match goal with |- context [addInput fuel c ?x] =>
      specialize (IHi c x); destruct (addInput fuel c x) as [n2 [[]|e|]] end;
      simpl in *; try done. by destruct (decide _).
  - intros a n. simpl. destruct (mem _ _); [done|]. by rewrite IHc.
Qed.

Lemma addStreaming_class (fuel : nat) :
  (forall c n, class_of (fst (addStreamingConsumer fuel c n)) = class_of n)
  /\ (forall a n, class_of (fst (addStreamingInput fuel a n)) = class_of n).
Proof.
  induction fuel as [|fuel [IHc IHi]]; [by split|]. split.
  - intros c n. simpl. destruct (_ || _); [done|].
    destruct (mem _ _); [done|]. destruct (mem _ _); [done|].
    destruct (hasattr_addStreamingInput _); [|done]. by rewrite IHi.
  - intros a n. simpl. destruct (class_of n a); try done;
      (destruct (mem _ _); [done|]; by rewrite IHc).
Qed.

Lemma run_class (fuel : nat) (ops : list Op) (n : Node) :
  class_of (run fuel ops n) = class_of n.
Proof.
  revert n. induction ops as [|o rest IH]; intros n; [done|].
  simpl. rewrite IH. destruct o; simpl.
  - apply addConsumer_addInput_class.
  - apply addStreaming_class.
  - destruct (hasattr_addInput _); [apply addConsumer_addInput_class|done].
  - destruct (hasattr_addStreamingInput _); [apply addStreaming_class|done].
Qed.

(** C7. After any sequence of [addConsumer] and [addStreamingConsumer]
    calls (and of the back-reference calls [addInput] and
    [addStreamingInput]) on a new node, no object is in both the
    consumer list and the streaming consumer list; [addConsumer] of a
    streaming consumer raises "already registered as a streaming
    consumer" and [addStreamingConsumer] of a normal consumer raises
    "already registered as a normal consumer" or, for an object without
    [dataWritten], the complaint about the missing method; each leaves
    the node as it was. *)
Theorem never_normal_and_streaming (fuel : nat)
    (classes : string -> ConsumerClass) (mode : ExecutionMode.t)
    (ops : list Op) (c : string) :
  let n := run fuel ops (new classes mode) in
  ~ (c ∈ _consumers n /\ c ∈ _streamingConsumers n)
  /\ (c ∈ _streamingConsumers n ->
      addConsumer (S fuel) c n = (n, Raises AlreadyStreaming))
  /\ (c ∈ _consumers n ->
      addStreamingConsumer (S fuel) c n
      = (n, Raises (if hasattr_dataWritten (classes c)
                    then AlreadyNormal else NoStreamingMethods))).
Proof.
  intros n.
  assert (wired n) as [Hd [Hc Hs]] by apply run_wired, new_wired.
  split_and!.
  - intros [Hin Hins]. by apply (Hd c).
  - intros Hin. rewrite addConsumer_rejects_streaming by done.
    by rewrite (proj1 (Hs c Hin)).
  - intros Hin. rewrite addStreamingConsumer_rejects_normal by done.
    rewrite (Hc c Hin). simpl. unfold n. by rewrite run_class.
Qed.

Lemma never_normal_and_streaming_witness :
  let classes := fun _ : string => AppDROP in
  let ops := [AddConsumer "x"; AddStreamingConsumer "y";
              AddConsumer "y"; AddStreamingConsumer "x"] in
  let n := run 1000 ops (new classes ExecutionMode.DROP) in
  "y" ∈ _streamingConsumers n /\ "x" ∈ _consumers n
  /\ addConsumer 1001 "y" n = (n, Raises AlreadyStreaming)
  /\ addStreamingConsumer 1001 "x" n = (n, Raises AlreadyNormal).
Proof.
  intros classes ops n.
  assert ("y" ∈ _streamingConsumers n) as Hy
    by (apply mem_true; vm_compute; reflexivity).
  assert ("x" ∈ _consumers n) as Hx
    by (apply mem_true; vm_compute; reflexivity).
  pose proof (never_normal_and_streaming 1000 classes ExecutionMode.DROP ops)
    as T.
  pose proof (T "y") as Ty. pose proof (T "x") as Tx.
  split; [exact Hy|]. split; [exact Hx|]. split.
  - exact (proj1 (proj2 Ty) Hy).
  - exact (proj2 (proj2 Tx) Hx).
Defined.

End WiringProperties.

(** * Properties of the parent setter *)

Section ParentProperties.

Import Parent.

Lemma class_of_set_parent (r r' : nat) (p : option nat) (st : Store) :
  class_of (obj (set_parent r p st) r') = class_of (obj st r').
Proof. simpl. by destruct (decide (r' = r)) as [->|]. Qed.

Lemma parent_set_parent (r r' : nat) (p : option nat) (st : Store) :
  _parent (obj (set_parent r p st) r')
  = if decide (r' = r) then p else _parent (obj st r').
Proof. simpl. by destruct (decide (r' = r)). Qed.

Lemma parent_append_child (r c r' : nat) (st : Store) :
  _parent (obj (append_child r c st) r') = _parent (obj st r').
Proof. simpl. by destruct (decide (r' = r)) as [->|]. Qed.

Example dirname_values :
  dirname "/tmp/d/f" = "/tmp/d" /\ dirname "/a" = "/" /\ dirname "a" = EmptyString
  /\ dirname "//a" = "//" /\ dirname "/a/b//c" = "/a/b".
Proof. split_and!; vm_compute; reflexivity. Qed.

(** A directory container takes a file directly under its path and
    refuses one that is elsewhere; the refused assignment leaves the
    parent as it was. *)
Example directory_container_children :
  let st :=
    mkStore (fun r =>
               if decide (r = 1%nat) then mkObj (FileDROP "/tmp/d/f") None []
               else if decide (r = 2%nat)
                    then mkObj (FileDROP "/tmp/other/f") None []
                    else mkObj (DirectoryContainer "/tmp/d") None []) [] in
  _parent (obj (fst (parent_setter 1000 1 (Some 10%nat) st)) 1%nat)
  = Some 10%nat
  /\ _parent (obj (fst (parent_setter 1000 2 (Some 10%nat) st)) 2%nat) = None.
Proof. intros st. split_and!; vm_compute; reflexivity. Qed.

(** Neither method is ever left waiting. *)
Lemma setter_addChild_no_spin (fuel : nat) :
  (forall self parent st, snd (parent_setter fuel self parent st) <> Spins)
  /\ (forall self child st, snd (addChild fuel self child st) <> Spins).
Proof.
  induction fuel as [|fuel [IHs IHa]]; [by split|].
  assert (forall self child st,
            snd (ContainerDROP_addChild (parent_setter fuel) self child st)
            <> Spins) as Hcont.
  { intros self child st. unfold ContainerDROP_addChild.
    destruct (decide _); [done | apply IHs]. }
  split.
  - intros self [p|] st; simpl; [|done].
    destruct (hasattr_addChild _); [|done].
    match goal with |- context [addChild fuel p self ?x] =>
      specialize (IHa p self x); destruct (addChild fuel p self x)
        as [st2 [[]|e|]] end; done.
  - intros self child st. simpl.
    destruct (class_of (obj st self)); try apply Hcont.
    destruct (class_of (obj st child)); try done;
      (destruct (negb _); [done | apply Hcont]).
Qed.

(** With room for its own frame the setter always returns: whatever
    [addChild] raises is caught. *)
Lemma parent_setter_returns (fuel self : nat) (parent : option nat) (st : Store) :
  snd (parent_setter (S fuel) self parent st) = Returns tt.
Proof.
  destruct parent as [p|]; simpl; [|done].
  destruct (hasattr_addChild _); [|done].
  match goal with |- context [addChild fuel p self ?x] =>
    pose proof (proj2 (setter_addChild_no_spin fuel) p self x) as Hn;
    destruct (addChild fuel p self x) as [st2 [[]|e|]] end; done.
Qed.

(** Once [self] has [p] as its parent, the calls that go back and forth
    between the setter of [self] and [p.addChild] keep it so, however
    they end. *)
Lemma setter_addChild_keep (self p : nat) (fuel : nat) :
  (forall st, _parent (obj st self) = Some p ->
     _parent (obj (fst (parent_setter fuel self (Some p) st)) self) = Some p)
  /\ (forall st, _parent (obj st self) = Some p ->
     _parent (obj (fst (addChild fuel p self st)) self) = Some p).
Proof.
  induction fuel as [|fuel [IHs IHa]]; [by split|].
  assert (forall st, _parent (obj st self) = Some p ->
            _parent (obj (fst (ContainerDROP_addChild (parent_setter fuel)
                                 p self st)) self) = Some p) as Hcont.
  { intros st HP. unfold ContainerDROP_addChild.
    destruct (decide _); [done|]. apply IHs. by rewrite parent_append_child. }
  split.
  - intros st HP. simpl. rewrite HP. simpl.
    assert (_parent (obj (set_parent self (Some p) (warn self st)) self)
            = Some p) as H1 by (rewrite parent_set_parent; by rewrite decide_True).
    destruct (hasattr_addChild _); [|exact H1].
    specialize (IHa _ H1).
    destruct (addChild fuel p self _) as [st2 [[]|e|]]; simpl in *; try done.
    by rewrite decide_True.
  - intros st HP. simpl.
    destruct (class_of (obj st p)); try by apply Hcont.
    destruct (class_of (obj st self)); try done;
      (destruct (negb _); [done | by apply Hcont]).
Qed.

Lemma parent_setter_S (fuel self p : nat) (st : Store) :
  parent_setter (S fuel) self (Some p) st
  = let st0 := match _parent (obj st self) with
               | Some _ => warn self st
               | None => st
               end in
    let st1 := set_parent self (Some p) st0 in
    if hasattr_addChild (class_of (obj st1 p)) then
      match addChild fuel p self st1 with
      | (st2, Returns _) => (st2, Returns tt)
      | (st2, Spins) => (st2, Spins)
      | (st2, Raises _) =>
          (set_parent self (_parent (obj st0 self)) st2, Returns tt)
      end
    else (st1, Returns tt).
Proof. reflexivity. Qed.

Lemma addChild_S (fuel self child : nat) (st : Store) :
  addChild (S fuel) self child st
  = match class_of (obj st self) with
    | DirectoryContainer path =>
        match class_of (obj st child) with
        | FileDROP cpath | DirectoryContainer cpath =>
            if negb (String.eqb (dirname cpath) path)
            then (st, Raises NotUnderDirectory)
            else ContainerDROP_addChild (parent_setter fuel) self child st
        | _ => (st, Raises ChildTypeError)
        end
    | _ => ContainerDROP_addChild (parent_setter fuel) self child st
    end.
Proof. reflexivity. Qed.

(** The stored parent after an assignment is the new one or the one
    before. *)
Lemma parent_setter_new_or_old (fuel self p : nat) (st : Store) :
  let st' := fst (parent_setter (S fuel) self (Some p) st) in
  _parent (obj st' self) = Some p
  \/ _parent (obj st' self) = _parent (obj st self).
Proof.
  rewrite parent_setter_S.
  set (st0 := match _parent (obj st self) with
              | Some _ => warn self st | None => st end).
  assert (_parent (obj st0 self) = _parent (obj st self)) as H0
    by (unfold st0; destruct (_parent (obj st self)) eqn:E; exact E).
  cbv zeta. set (st1 := set_parent self (Some p) st0).
  assert (_parent (obj st1 self) = Some p) as H1
    by (unfold st1; rewrite parent_set_parent; by rewrite decide_True).
  destruct (hasattr_addChild _); [|by left].
  pose proof (proj2 (setter_addChild_keep self p fuel) _ H1) as Hk.
  destruct (addChild fuel p self st1) as [st2 [[]|e|]];
    [by left| |by left].
  right. cbn [fst]. rewrite parent_set_parent. by rewrite decide_True.
Qed.

(** A plain container that is neither [self] nor a child of [self]
    accepts it. *)
Lemma addChild_container_returns (fuel self p : nat) (st : Store) :
  class_of (obj st p) = ContainerDROP -> _parent (obj st p) <> Some self ->
  snd (addChild (S (S fuel)) p self st) = Returns tt.
Proof.
  intros Hc Hp. rewrite addChild_S, Hc. unfold ContainerDROP_addChild.
  rewrite decide_False by congruence. apply parent_setter_returns.
Qed.

(** The log of warnings only grows. *)
Lemma setter_addChild_warned (fuel : nat) :
  (forall s parent st,
     warned st ⊆ warned (fst (parent_setter fuel s parent st)))
  /\ (forall s c st, warned st ⊆ warned (fst (addChild fuel s c st))).
Proof.
  induction fuel as [|fuel [IHs IHa]]; [by split|].
  assert (forall s c st, warned st ⊆
            warned (fst (ContainerDROP_addChild (parent_setter fuel) s c st)))
    as Hcont.
  { intros s c st0. unfold ContainerDROP_addChild.
    destruct (decide _); [done|]. etrans; [|apply IHs]. done. }
  split.
  - intros s [p0|] st0; simpl; [|done].
    set (st1 := match _parent (obj st0 s) with
                | Some _ => warn s st0 | None => st0 end).
    assert (warned st0 ⊆ warned st1) as H1.
    { unfold st1. destruct (_parent (obj st0 s)); [|done].
      simpl. intros x Hx. apply elem_of_app. by left. }
    destruct (hasattr_addChild _); [|done].
    specialize (IHa p0 s (set_parent s (Some p0) st1)).
    destruct (addChild fuel p0 s _) as [st2 [[]|e|]]; simpl in *;
      etrans; eauto.
  - intros s c st0. simpl.
    destruct (class_of (obj st0 s)); try apply Hcont.
    destruct (class_of (obj st0 c)); try done;
      (destruct (negb _); [done | apply Hcont]).
Qed.

Lemma parent_setter_warns (fuel self p : nat) (st : Store) :
  is_Some (_parent (obj st self)) ->
  self ∈ warned (fst (parent_setter (S fuel) self (Some p) st)).
Proof.
  intros [q Hq]. simpl. rewrite Hq.
  assert (self ∈ warned (set_parent self (Some p) (warn self st))) as Hin
    by (simpl; apply elem_of_app; right; by apply list_elem_of_singleton).
  destruct (hasattr_addChild _); [|exact Hin].
  pose proof (proj2 (setter_addChild_warned fuel) p self
                (set_parent self (Some p) (warn self st))) as Hsub.
  destruct (addChild fuel p self _) as [st2 [[]|e|]]; simpl in *;
    by apply Hsub.
Qed.

(** C4, as stated, fails: node 1 gets container 10 as parent, then
    container 11 is assigned and replaces it. *)
Lemma parent_write_once_fails : ~ parent_write_once 1000.
Proof.
  intros H.
  pose proof (H (fst (parent_setter 1000 1 (Some 10%nat) one_node_store))
                1%nat 10%nat 11%nat) as H'.
  assert (_parent (obj (fst (parent_setter 1000 1 (Some 11%nat)
            (fst (parent_setter 1000 1 (Some 10%nat) one_node_store)))) 1%nat)
          = Some 11%nat) as Hnew by (vm_compute; reflexivity).
  rewrite Hnew in H'.
  assert (Some 11%nat = Some 10%nat) as Habs; [|discriminate Habs].
  apply H'; [vm_compute; reflexivity | lia].
Qed.

(** The parent is not the new one only if [addChild] raised. *)
Lemma parent_setter_kept (fuel self p : nat) (st : Store) :
  _parent (obj (fst (parent_setter (S fuel) self (Some p) st)) self) <> Some p ->
  hasattr_addChild (class_of (obj st p)) = true
  /\ exists e, snd (addChild fuel p self (before_addChild self p st)) = Raises e.
Proof.
  rewrite parent_setter_S. cbv zeta. fold (before_addChild self p st).
  assert (_parent (obj (before_addChild self p st) self) = Some p) as H1
    by (unfold before_addChild; rewrite parent_set_parent; by rewrite decide_True).
  assert (class_of (obj (before_addChild self p st) p) = class_of (obj st p))
    as ->.
  { unfold before_addChild. rewrite class_of_set_parent.
    by destruct (_parent (obj st self)). }
  destruct (hasattr_addChild _); [|done].
  pose proof (proj2 (setter_addChild_keep self p fuel) _ H1) as Hk.
  pose proof (proj2 (setter_addChild_no_spin fuel) p self
                (before_addChild self p st)) as Hn.
  destruct (addChild fuel p self _) as [st2 [[]|e|]]; simpl in *; try done.
  intros _. split; [done|]. by exists e.
Qed.

(** C4, amended. An assignment of a container [p] to the parent of
    [self] returns, and the stored parent is then [p] or the one before;
    it is the one before only if [p.addChild] raised. It is [p],
    whatever parent was stored before, when [p] has no [addChild] or
    when [p] is a plain container other than [self] whose parent is not
    [self]; a warning is logged when a parent was already set.
    Assigning no parent changes nothing. *)
Theorem parent_setter_overwrites (fuel self p : nat) (st : Store) :
  (3 <= fuel)%nat ->
  let st' := fst (parent_setter fuel self (Some p) st) in
  snd (parent_setter fuel self (Some p) st) = Returns tt
  /\ (_parent (obj st' self) = Some p
      \/ _parent (obj st' self) = _parent (obj st self))
  /\ (_parent (obj st' self) <> Some p ->
      exists e, snd (addChild (pred fuel) p self (before_addChild self p st))
                = Raises e)
  /\ (hasattr_addChild (class_of (obj st p)) = false ->
      _parent (obj st' self) = Some p)
  /\ (class_of (obj st p) = ContainerDROP -> p <> self ->
      _parent (obj st p) <> Some self ->
      _parent (obj st' self) = Some p)
  /\ (is_Some (_parent (obj st self)) -> self ∈ warned st')
  /\ parent_setter fuel self None st = (st, Returns tt).
Proof.
  intros Hfuel.
  destruct fuel as [|[|[|fuel]]]; try lia. clear Hfuel.
  cbv zeta. split_and!.
  - apply parent_setter_returns.
  - apply parent_setter_new_or_old.
  - intros Hne. by apply parent_setter_kept.
  - intros Hno. rewrite parent_setter_S. cbv zeta.
    rewrite class_of_set_parent.
    assert (class_of (obj match _parent (obj st self) with
                          | Some _ => warn self st | None => st end p)
            = class_of (obj st p)) as ->
      by (by destruct (_parent (obj st self))).
    rewrite Hno. cbn [fst]. rewrite parent_set_parent. by rewrite decide_True.
  - intros Hc Hne Hp. rewrite parent_setter_S.
    set (st0 := match _parent (obj st self) with
                | Some _ => warn self st | None => st end).
    cbv zeta. set (st1 := set_parent self (Some p) st0).
    assert (class_of (obj st1 p) = ContainerDROP) as Hc1.
    { unfold st1. rewrite class_of_set_parent. unfold st0.
      by destruct (_parent (obj st self)). }
    assert (_parent (obj st1 p) <> Some self) as Hp1.
    { unfold st1. rewrite parent_set_parent, decide_False by done.
      unfold st0. by destruct (_parent (obj st self)). }
    assert (_parent (obj st1 self) = Some p) as H1
      by (unfold st1; rewrite parent_set_parent; by rewrite decide_True).
    rewrite Hc1. cbn [hasattr_addChild].
    pose proof (addChild_container_returns fuel self p st1 Hc1 Hp1) as Hr.
    pose proof (proj2 (setter_addChild_keep self p (S (S fuel))) st1 H1) as Hk.
    destruct (addChild (S (S fuel)) p self st1) as [st2 r]. simpl in Hr, Hk.
    by rewrite Hr.
  - apply parent_setter_warns.
  - reflexivity.
Qed.

Lemma parent_setter_overwrites_witness :
  let st := fst (parent_setter 1000 1 (Some 10%nat) one_node_store) in
  let st' := fst (parent_setter 1000 1 (Some 11%nat) st) in
  (3 <= 1000)%nat
  /\ class_of (obj st 11%nat) = ContainerDROP /\ 11%nat <> 1%nat
  /\ _parent (obj st 11%nat) <> Some 1%nat
  /\ _parent (obj st 1%nat) = Some 10%nat
  /\ _parent (obj st' 1%nat) = Some 11%nat
  /\ 1%nat ∈ warned st'.
Proof.
  intros st st'.
  assert (3 <= 1000)%nat as Hfuel by lia.
  assert (class_of (obj st 11%nat) = ContainerDROP) as Hc
    by (vm_compute; reflexivity).
  assert (11%nat <> 1%nat) as Hne by lia.
  assert (_parent (obj st 11%nat) <> Some 1%nat) as Hp
    by (vm_compute; discriminate).
  assert (_parent (obj st 1%nat) = Some 10%nat) as Hold
    by (vm_compute; reflexivity).
  assert (is_Some (_parent (obj st 1%nat))) as Hset
    by (rewrite Hold; by eexists).
  pose proof (parent_setter_overwrites 1000 1 11 st Hfuel) as H.
  destruct H as (_ & _ & _ & _ & Hover & Hwarn & _).
  exact (conj Hfuel (conj Hc (conj Hne (conj Hp (conj Hold
           (conj (Hover Hc Hne Hp) (Hwarn Hset))))))).
Defined.

End ParentProperties.

(** * Properties of the barrier application *)

Section BarrierProperties.

Import Barrier.

Lemma execStatus_setter_execStatus (v : AppDROPStates.t) (a : App) :
  _execStatus (execStatus_setter v a) = v.
Proof. unfold execStatus_setter. by destruct (decide _). Qed.

Lemma status_setter_status_app (v : DROPStates) (a : App) :
  _status (status_setter v a) = v /\ _execStatus (status_setter v a) = _execStatus a.
Proof. unfold status_setter. by destruct (decide _). Qed.

(** C6. [execute] sets [execStatus] to [RUNNING] and calls [run] on the
    application in that state. When [run] returns, [execStatus] becomes
    [FINISHED] and [execute] returns; when [run] raises, [execStatus]
    becomes [ERROR] and [execute] raises the same exception. In both
    cases [status] is then set to [COMPLETED], on an application whose
    [execStatus] is no longer [RUNNING]. *)
Theorem execute_outcome (run : App -> App * Result unit) (a a2 : App)
    (r : Result unit) :
  run (execStatus_setter AppDROPStates.RUNNING a) = (a2, r) -> r <> Spins ->
  let final := match r with
               | Returns _ => AppDROPStates.FINISHED
               | _ => AppDROPStates.ERROR
               end in
  let a3 := execStatus_setter final a2 in
  _execStatus (execStatus_setter AppDROPStates.RUNNING a)
  = AppDROPStates.RUNNING
  /\ execute run a = (status_setter COMPLETED a3, r)
  /\ _execStatus a3 <> AppDROPStates.RUNNING
  /\ _execStatus (fst (execute run a)) = final
  /\ _status (fst (execute run a)) = COMPLETED.
Proof.
  intros Hrun Hr final a3.
  assert (execute run a = (status_setter COMPLETED a3, r)) as He.
  { unfold execute. rewrite Hrun. unfold a3, final.
    by destruct r as [[]|e|]. }
  assert (_execStatus a3 = final) as H3 by apply execStatus_setter_execStatus.
  destruct (status_setter_status_app COMPLETED a3) as [Hs Hx].
  split_and!.
  - apply execStatus_setter_execStatus.
  - exact He.
  - rewrite H3. unfold final. by destruct r.
  - rewrite He. simpl. congruence.
  - rewrite He. exact Hs.
Qed.

Lemma execute_outcome_witness :
  let run := fun a : App => (a, Raises (AppError "exit code 1")) in
  let a := new "x" ["a1"] in
  let r : Result unit := Raises (AppError "exit code 1") in
  let a1 := execStatus_setter AppDROPStates.RUNNING a in
  run a1 = (a1, r)
  /\ r <> Spins
  /\ snd (execute run a) = r
  /\ _execStatus (fst (execute run a)) = AppDROPStates.ERROR
  /\ _status (fst (execute run a)) = COMPLETED.
Proof.
  intros run a r a1.
  assert (run a1 = (a1, r)) as Hrun by reflexivity.
  assert (r <> Spins) as Hr by discriminate.
  destruct (execute_outcome run a _ r Hrun Hr) as (_ & He & _ & Hx & Hs).
  split; [exact Hrun|]. split; [exact Hr|]. split; [by rewrite He|].
  split; [exact Hx | exact Hs].
Defined.

(** ** Notifications *)

Lemma dropCompleted_all_counts (uids : list string) (a : App) :
  let a' := dropCompleted_all uids a in
  let k := length (_completedInputs a) in
  _inputs a' = _inputs a
  /\ _completedInputs a' = _completedInputs a ++ uids
  /\ started a'
     = (started a
        + if decide (k < length (_inputs a) <= k + length uids)%nat
          then 1 else 0)%nat.
Proof.
  revert a. induction uids as [|uid rest IH]; intros a; cbv zeta.
  - simpl. rewrite app_nil_r. split_and!; [done..|].
    rewrite decide_False by lia. lia.
  - simpl dropCompleted_all.
    assert (_inputs (dropCompleted uid a) = _inputs a
            /\ _completedInputs (dropCompleted uid a)
               = _completedInputs a ++ [uid]
            /\ started (dropCompleted uid a)
               = (started a
                  + if decide (S (length (_completedInputs a))
                               = length (_inputs a))
                    then 1 else 0)%nat) as (Hi1 & Hc1 & Hs1).
    { unfold dropCompleted. simpl. rewrite length_app. simpl.
      replace (length (_completedInputs a) + 1)%nat
        with (S (length (_completedInputs a))) by lia.
      destruct (decide (S (length (_completedInputs a)) = length (_inputs a)));
        simpl; split_and!; try done; lia. }
    destruct (IH (dropCompleted uid a)) as (Hi & Hc & Hs).
    rewrite Hi, Hc, Hs, Hi1, Hc1, Hs1, <- app_assoc.
    split_and!; [done..|].
    rewrite length_app. simpl.
    repeat destruct (decide _); lia.
Qed.

(** C10. [dropCompleted] keeps every uid it is given, repeated or not,
    and starts [execute] on the call that makes the list of completed
    inputs as long as the list of inputs, and on no other call: over
    any sequence of calls on a new barrier one execution is started if
    the barrier has inputs and the calls are at least as many, none
    otherwise. So as many calls with one and the same uid as there are
    inputs start the execution, and no later call starts a second. *)
Theorem dropCompleted_counts_calls (self : string) (inputs uids : list string)
    (uid : string) :
  let a := dropCompleted_all uids (new self inputs) in
  _completedInputs a = uids
  /\ started a
     = (if decide (0 < length inputs <= length uids)%nat then 1 else 0)%nat
  /\ ((0 < length inputs)%nat ->
      forall later : list string,
        started (dropCompleted_all (replicate (length inputs) uid ++ later)
                                   (new self inputs)) = 1%nat).
Proof.
  cbv zeta.
  destruct (dropCompleted_all_counts uids (new self inputs)) as (_ & Hc & Hs).
  split_and!; [exact Hc | rewrite Hs; simpl; by repeat destruct (decide _) |].
  intros Hn later.
  destruct (dropCompleted_all_counts (replicate (length inputs) uid ++ later)
              (new self inputs)) as (_ & _ & Hs').
  rewrite Hs'. simpl. rewrite decide_True; [done|].
  rewrite length_app, length_replicate. lia.
Qed.

Lemma dropCompleted_counts_calls_witness :
  (0 < length ["a1"; "b1"])%nat
  /\ started (dropCompleted_all (replicate 2 "a1" ++ ["b1"; "a1"])
                                (new "x" ["a1"; "b1"])) = 1%nat.
Proof.
  assert (0 < length ["a1"; "b1"])%nat as Hn by (simpl; lia).
  split; [exact Hn|].
  exact (proj2 (proj2 (dropCompleted_counts_calls "x" ["a1"; "b1"] [] "a1"))
           Hn ["b1"; "a1"]).
Defined.

End BarrierProperties.

(** * Properties of the container application *)

Section DockerProperties.

Import Docker.

Example replace_values :
  replace "aa" "b" "aaaaa" = "bba" /\ replace EmptyString "-" "abc" = "-a-b-c-"
  /\ replace "%containerIp[a1]%" "10.0.0.7" "ping %containerIp[a1]% -c 1"
     = "ping 10.0.0.7 -c 1"
  /\ contains "bc" "abcd" = true /\ contains "bd" "abcd" = false.
Proof. split_and!; vm_compute; reflexivity. Qed.

(** The placeholder that [handleInterest] looks for carries the uid of
    the other application. *)
Lemma handleInterest_registers (drop : Drop) (app : DockerApp) :
  isDockerApp drop = true ->
  contains (placeholder (uid drop)) (_command app) = true ->
  _waiters (handleInterest drop app)
  = _waiters app ++ [mkWaiter (uid drop) None].
Proof. intros Hd Hc. unfold handleInterest. by rewrite Hd, Hc. Qed.

Lemma handleInterest_skips (drop : Drop) (app : DockerApp) :
  contains (placeholder (uid drop)) (_command app) = false ->
  handleInterest drop app = app.
Proof.
  intros Hc. unfold handleInterest. rewrite Hc. by rewrite andb_false_r.
Qed.

(** A waiter that has not heard from its target blocks [run]. *)
Lemma replace_ips_blocks (waiters : list ContainerIpWaiter) (cmd : string) :
  (exists w, w ∈ waiters /\ w_containerIp w = None) ->
  replace_ips waiters cmd = None.
Proof.
  revert cmd. induction waiters as [|w0 rest IH]; intros cmd (w & Hin & Hw).
  - by apply elem_of_nil in Hin.
  - simpl. unfold waitForIp. destruct (w_containerIp w0) eqn:E0; [|done].
    apply IH. exists w. split; [|done].
    apply elem_of_cons in Hin as [->|Hin]; [congruence|done].
Qed.

(** The placeholder written with the uid: the waiter is registered, [run]
    blocks until the address is published and then puts it in. *)
Example interest_by_uid :
  let P := mkDrop "a" "a1" true in
  let Q := mkDockerApp (mkDrop "q" "q1" true) "ping %containerIp[a1]%" [] in
  let Q1 := handleInterest P Q in
  _waiters Q1 = [mkWaiter "a1" None]
  /\ run_command id Q1 = None
  /\ run_command id (containerIp_published P "10.0.0.7" Q1)
     = Some "ping 10.0.0.7".
Proof. intros P Q Q1. split_and!; vm_compute; reflexivity. Qed.

(** C3. The command of Q holds [%containerIp[a]%], where [a] is the OID
    of P, whose uid is [a1]. [Q.handleInterest(P)] registers no waiter,
    and the loop in [run] neither waits for P nor touches the
    placeholder. *)
Theorem handleInterest_ignores_oid :
  let P := mkDrop "a" "a1" true in
  let Q := mkDockerApp (mkDrop "q" "q1" true) "ping %containerIp[a]%" [] in
  contains (placeholder (oid P)) (_command Q) = true
  /\ handleInterest P Q = Q
  /\ _waiters (handleInterest P Q) = []
  /\ forall replace_placeholders : string -> string,
       run_command replace_placeholders (handleInterest P Q)
       = Some (replace_placeholders "ping %containerIp[a]%").
Proof. intros P Q. split_and!; try (vm_compute; reflexivity). Qed.

End DockerProperties.

(** * Further properties of the data node *)

Section MoreDropProperties.

Import Drop.

Variable crc32 : list byte -> Z -> Z.
Variable cst : ChecksumTypes.

(** ** Open descriptors and the reference count *)

Lemma ends_keep {A} (P : DROP -> Prop) (m : Meth A) :
  (forall d, P d -> P (fst (m d))) -> ends P m P.
Proof. intros H d. apply H. Qed.

Lemma ends_write (P : DROP -> Prop) (data : list byte) :
  (forall d v, P d -> P (set_wio v d)) ->
  (forall d v, P d -> P (set_stored v d)) ->
  (forall d v, P d -> P (set_size (Some v) d)) ->
  (forall d v, P d -> P (set_called v d)) ->
  (forall d v, P d -> P (set_checksum (Some v) d)) ->
  (forall d v, P d -> P (set_checksumType (Some v) d)) ->
  (forall d, P d -> P (fst (advance_status d))) ->
  ends P (write crc32 cst data) P.
Proof.
  intros Hwio Hstored Hsize Hcalled Hck Hckt Hadv d Hd. unfold write.
  destruct (negb _); [done|]. revert d Hd.
  apply (ends_bind P P P); [| done | intros _].
  { intros d Hd. unfold open_writer. destruct (_wio d); [done|]. simpl.
    destruct (open_ok _ _); simpl; by apply Hwio. }
  apply (ends_bind P P P); [| done | intros nbytes].
  { intros d Hd. by apply Hstored. }
  apply (ends_bind P P P); [| done | intros _].
  { intros d Hd. by apply Hsize. }
  apply (ends_bind P P P); [| done | intros _].
  { intros d Hd. unfold trigger_streamingConsumers.
    destruct (_streamingConsumers d); [done|].
    destruct (py_buffer _ _); [done|]. by apply Hcalled. }
  apply (ends_bind P P P); [| done | intros _].
  { intros d Hd. unfold _updateChecksum, modify. simpl. apply Hck.
    destruct (_checksum d); [done|]. by apply Hckt, Hck. }
  apply (ends_bind P P P); [| done | by intros _ d Hd].
  intros d Hd. by apply Hadv.
Qed.

Lemma fst_returned {A} (x : DROP * Result A) :
  fst (let (d', r) := x in (d', returned r)) = fst x.
Proof. by destruct x. Qed.




(** ** After completion *)




(** ** What the streaming consumers see *)






(** ** Writing up to the expected size *)

Lemma written_fields (data : list byte) (d : DROP) :
  let n := write_result (backend d) (stored d) data in
  _status (written crc32 cst data d) = _status d
  /\ _expectedSize (written crc32 cst data d) = _expectedSize d
  /\ _size (written crc32 cst data d) = Some (default 0 (_size d) + n).
Proof.
  unfold written, trigger_streamingConsumers, _updateChecksum, modify. simpl.
  destruct (_streamingConsumers d); simpl.
  - by destruct (_checksum d).
  - destruct (py_buffer _ _); simpl; by destruct (_checksum d).
Qed.

Lemma write_decompose (data : list byte) (d d' : DROP) (n : Z) :
  write crc32 cst data d = (d', Returns n) ->
  writable (_status d) = true
  /\ n = write_result (backend d) (stored d) data
  /\ advance_status (written crc32 cst data d) = (d', Returns tt).
Proof.
  unfold write. destruct (writable (_status d)) eqn:Hw; [|done]. simpl.
  unfold bind at 1.
  destruct (open_writer d) as [d1 [[]|e|]] eqn:E1; [|done..].
  assert (d1 = set_wio true d) as ->.
  { unfold open_writer in E1. destruct (_wio d) eqn:Hwio.
    - injection E1 as <-. destruct d; simpl in *. by subst.
    - simpl in E1. destruct (open_ok _ _); by injection E1 as <-. }
  unfold bind at 1. unfold wio_write at 1. simpl.
  unfold bind at 1. unfold add_size at 1, modify at 1.
  unfold bind at 1. unfold written. cbv zeta. simpl.
  destruct (trigger_streamingConsumers _ _ _) as [d4 [[]|e|]]; [|done..].
  unfold bind at 1. unfold _updateChecksum at 1, modify at 1.
  unfold bind at 1. unfold _updateChecksum, modify. cbn [fst].
  destruct (advance_status _) as [d6 [[]|e|]]; [|done..].
  unfold ret. by intros [= <- <-].
Qed.

(** X4. A write that returns leaves the node [COMPLETED] when an
    expected size was given and the bytes accepted so far reach it, and
    [WRITING] otherwise. *)
Theorem write_completes_at_expected_size (data : list byte) (d d' : DROP)
    (n : Z) :
  write crc32 cst data d = (d', Returns n) ->
  _status d'
  = if decide (0 < _expectedSize d <= default 0 (_size d) + n)
    then COMPLETED else WRITING.
Proof.
  intros H. destruct (write_decompose data d d' n H) as (Hw & -> & Hadv).
  destruct (written_fields data d) as (Hs & He & Hz). cbv zeta in Hz.
  set (w := written crc32 cst data d) in *.
  assert (_status d' = _status (fst (advance_status w))) as ->
    by (by rewrite Hadv).
  unfold advance_status. rewrite He, Hz. simpl.
  assert (writable (_status w) = true) as Hww by (by rewrite Hs).
  destruct (decide (_expectedSize d > 0)) as [Hpos|Hnpos].
  - destruct (decide (_ > 0)) as [Hrem|Hrem].
    + rewrite status_setter_status. by rewrite decide_False by lia.
    + rewrite (proj1 (setCompleted_status w Hww)).
      by rewrite decide_True by lia.
  - rewrite status_setter_status. by rewrite decide_False by lia.
Qed.

(** ** Size and checksum given from outside *)

Lemma setCompleted_described (d : DROP) :
  described d -> described (fst (setCompleted d)).
Proof.
  unfold setCompleted. destruct (negb _); [done|].
  unfold bind, status_setter. by destruct (decide _).
Qed.

Lemma advance_status_described (d : DROP) :
  described d -> described (fst (advance_status d)).
Proof.
  intros Hd. unfold advance_status.
  destruct (decide _); [destruct (decide _)|];
    try (by apply setCompleted_described).
  all: unfold status_setter; by destruct (decide _).
Qed.

Lemma apply_described (o : Op) (d : DROP) :
  described d -> described (fst (apply crc32 cst o d)).
Proof.
  intros Hd.
  destruct o as [data| |draws|descriptor count|descriptor|uid]; simpl;
    rewrite fst_returned.
  - apply (ends_write described data); try done.
    + intros x v [? ?]. by split.
    + intros x v [? ?]. by split.
    + apply advance_status_described.
  - by apply setCompleted_described.
  - unfold open. destruct (negb _); [done|]. destruct (negb _); [done|].
    by destruct (pick_descriptor _ _).
  - unfold read, bind, _checkStateAndDescriptor.
    destruct (negb _); [done|]. by destruct (_rios d !! descriptor).
  - unfold close, bind, _checkStateAndDescriptor.
    destruct (negb _); [done|]. by destruct (_rios d !! descriptor).
  - unfold producerFinished. destruct (negb _); [done|].
    destruct (decide _); [done|]. destruct (decide _); [|done].
    by apply (setCompleted_described
                (set_finishedProducers (_finishedProducers d ∪ {[uid]}) d)).
Qed.

(** X5. Once a write has returned, the size and the checksum are those
    the node has computed: whatever operations follow, an assignment to
    either of them from outside is refused and changes nothing. *)
Theorem written_data_is_described (data : list byte) (d d1 : DROP) (n : Z)
    (ops : list Op) (v c : Z) :
  write crc32 cst data d = (d1, Returns n) ->
  let d2 := perform crc32 cst ops d1 in
  size_setter v d2 = (d2, Raises (already_set "size"))
  /\ checksum_setter c d2 = (d2, Raises (already_set "checksum")).
Proof.
  intros H.
  assert (described d1) as H1.
  { destruct (write_returns crc32 cst data d d1 n H) as (_ & _ & Hz & Hc).
    split; by eexists. }
  assert (forall ops x, described x -> described (perform crc32 cst ops x))
    as Hall.
  { clear. intros ops. induction ops as [|o rest IH]; intros x Hx; [done|].
    simpl. by apply IH, apply_described. }
  destruct (Hall ops d1 H1) as [[z Hz] [c0 Hc]]. cbv zeta.
  unfold size_setter, checksum_setter. by rewrite Hz, Hc.
Qed.


(** ** Producers that report one after the other *)

Lemma setCompleted_producers (d : DROP) :
  _producers (fst (setCompleted d)) = _producers d
  /\ _finishedProducers (fst (setCompleted d)) = _finishedProducers d.
Proof.
  unfold setCompleted. destruct (negb _); [done|].
  unfold bind, status_setter. by destruct (decide _).
Qed.

Lemma producersFinished_distinct (uids : list string) (d : DROP) :
  NoDup uids ->
  (forall u, u ∈ uids -> u ∈ _producers d /\ u ∉ _finishedProducers d) ->
  (size (_finishedProducers d) + length uids <= length (_producers d))%nat ->
  writable (_status d) = true ->
  let d' := producersFinished uids d in
  _producers d' = _producers d
  /\ _finishedProducers d' = _finishedProducers d ∪ list_to_set uids
  /\ _status d'
     = if decide (uids <> []
                  /\ (size (_finishedProducers d) + length uids)%nat
                     = length (_producers d))
       then COMPLETED else _status d.
Proof.
  revert d. induction uids as [|u rest IH]; intros d Hnd Hin Hlen Hw; cbv zeta.
  - simpl. split_and!; [done| |done]. by rewrite (right_id_L ∅ (∪)).
  - simpl producersFinished.
    apply NoDup_cons in Hnd as [Hu Hnd].
    destruct (Hin u) as [Hup Huf]; [by left|].
    simpl in Hlen.
    destruct (producerFinished_new u d Hup Huf) as (Hr & Hsz & Hs);
      [lia | done |].
    set (d1 := fst (producerFinished u d)) in *.
    assert (_producers d1 = _producers d
            /\ _finishedProducers d1 = _finishedProducers d ∪ {[u]})
      as [Hp1 Hf1].
    { unfold d1, producerFinished. rewrite bool_decide_true by done. simpl.
      rewrite decide_False by lia.
      destruct (decide ((size (_finishedProducers d) + 1)%nat
                        = length (_producers d))); [|by split].
      by destruct (setCompleted_producers
                     (set_finishedProducers (_finishedProducers d ∪ {[u]}) d))
        as [-> ->]. }
    destruct (decide (S (size (_finishedProducers d))
                      = length (_producers d))) as [Hlast|Hmore].
    + assert (rest = []) as -> by (destruct rest; [done|simpl in Hlen; lia]).
      simpl. split_and!; [done| |].
      { rewrite Hf1. by rewrite (right_id_L ∅ (∪)). }
      rewrite Hs. rewrite decide_True; [done|]. split; [done|]. simpl. lia.
    + destruct (IH d1) as (Hp & Hf & Hst); try done.
      * intros x Hx. destruct (Hin x) as [Hxp Hxf]; [by right|].
        rewrite Hp1, Hf1. split; [done|].
        intros [Hxf'|Hxu]%elem_of_union; [done|].
        apply elem_of_singleton in Hxu as ->. done.
      * rewrite Hp1, Hsz. simpl in Hlen. lia.
      * by rewrite Hs.
      * cbv zeta in *. rewrite Hp, Hf, Hst. split_and!; [done| |].
        { rewrite Hf1. simpl. by rewrite (assoc_L (∪)). }
        rewrite Hsz, Hp1, Hs. clear Hst IH.
        repeat case_decide; try done; exfalso;
          destruct rest as [|u' rest']; simpl in *; naive_solver lia.
Qed.

(** X7. When distinct registered producers report one after the other
    on a new node, every report is taken, and the node is [COMPLETED]
    once as many have reported as there are producers, and
    [INITIALIZED] as long as fewer have. *)
Theorem distinct_producers_complete (oid uid : string) (expectedSize : Z)
    (io : Backend) (producers consumers uids : list string) :
  NoDup uids -> (forall u, u ∈ uids -> u ∈ producers) ->
  let d := producersFinished uids
             (new oid uid expectedSize io producers consumers) in
  _finishedProducers d = list_to_set uids
  /\ _status d
     = if decide (uids <> [] /\ length uids = length producers)
       then COMPLETED else INITIALIZED.
Proof.
  intros Hnd Hin.
  assert (length uids <= length producers)%nat as Hlen
    by (by apply submseteq_length, NoDup_submseteq).
  set (d0 := new oid uid expectedSize io producers consumers).
  assert (size (_finishedProducers d0) = 0%nat) as Hz by apply size_empty.
  assert (forall u, u ∈ uids ->
            u ∈ _producers d0 /\ u ∉ _finishedProducers d0) as Hin0.
  { intros u Hu. split; [by apply Hin|]. apply not_elem_of_empty. }
  assert (size (_finishedProducers d0) + length uids
          <= length (_producers d0))%nat as Hlen0 by (rewrite Hz; simpl; lia).
  destruct (producersFinished_distinct uids d0 Hnd Hin0 Hlen0 eq_refl)
    as (_ & Hf & Hs).
  cbv zeta in *. rewrite Hf, Hs, Hz. split.
  - change (_finishedProducers d0) with (∅ : gset string).
    by rewrite (left_id_L ∅ (∪)).
  - done.
Qed.

End MoreDropProperties.


Lemma write_completes_at_expected_size_witness :
  let d := Drop.after Binascii.crc32 CRC_32
             [Drop.Write (list_byte_of_string "ab")]
             (Drop.new "m" "m1" 4 memory_backend [] []) in
  let cd := list_byte_of_string "cd" in
  let d' := fst (Drop.write Binascii.crc32 CRC_32 cd d) in
  Drop.write Binascii.crc32 CRC_32 cd d = (d', Returns 2)
  /\ Drop._status d = WRITING /\ Drop._status d' = COMPLETED.
Proof.
  intros d cd d'.
  assert (Drop.write Binascii.crc32 CRC_32 cd d = (d', Returns 2)) as H
    by (vm_compute; reflexivity).
  split; [exact H|]. split; [vm_compute; reflexivity|].
  etrans; [exact (write_completes_at_expected_size
                    Binascii.crc32 CRC_32 cd d d' 2 H)|].
  vm_compute. reflexivity.
Defined.

Lemma written_data_is_described_witness :
  let d := Drop.new "a" "a1" (-1) (short_backend 2) [] [] in
  let data := list_byte_of_string "abcd" in
  let d1 := fst (Drop.write Binascii.crc32 CRC_32 data d) in
  let d2 := Drop.perform Binascii.crc32 CRC_32 [Drop.SetCompleted] d1 in
  Drop.write Binascii.crc32 CRC_32 data d = (d1, Returns 2)
  /\ Drop.size_setter 4 d2 = (d2, Raises (Drop.already_set "size"))
  /\ Drop.checksum_setter 0 d2 = (d2, Raises (Drop.already_set "checksum")).
Proof.
  intros d data d1 d2.
  assert (Drop.write Binascii.crc32 CRC_32 data d = (d1, Returns 2)) as H
    by (vm_compute; reflexivity).
  split; [exact H|].
  exact (written_data_is_described Binascii.crc32 CRC_32 data d d1 2
           [Drop.SetCompleted] 4 0 H).
Defined.


Lemma distinct_producers_complete_witness :
  let d := Drop.producersFinished ["p2"; "p1"]
             (Drop.new "b" "b1" (-1) memory_backend ["p1"; "p2"] []) in
  NoDup ["p2"; "p1"]
  /\ (forall u, u ∈ ["p2"; "p1"] -> u ∈ ["p1"; "p2"])
  /\ Drop._status d = COMPLETED.
Proof.
  intros d.
  assert (NoDup ["p2"; "p1"]) as Hnd.
  { apply NoDup_cons. split; [|apply NoDup_singleton].
    intros H. apply list_elem_of_singleton in H. discriminate. }
  assert (forall u, u ∈ ["p2"; "p1"] -> u ∈ ["p1"; "p2"]) as Hin.
  { intros u Hu. apply elem_of_cons in Hu as [->|Hu].
    - right. by left.
    - apply list_elem_of_singleton in Hu as ->. by left. }
  split; [exact Hnd|]. split; [exact Hin|].
  etrans; [exact (proj2 (distinct_producers_complete "b" "b1" (-1)
                           memory_backend ["p1"; "p2"] [] ["p2"; "p1"]
                           Hnd Hin))|].
  reflexivity.
Defined.

(** * Further properties of the consumer lists *)

Section MoreWiringProperties.

Import Wiring.

Lemma addConsumer_S (fuel : nat) (consumer : string) (n : Node) :
  addConsumer (S fuel) consumer n
  = if negb (hasattr_dropCompleted (class_of n consumer))
    then (n, Raises NoDropCompleted)
    else if mem consumer (_streamingConsumers n)
    then (n, Raises AlreadyStreaming)
    else if mem consumer (_consumers n)
    then (n, Returns tt)
    else
      let n := set_consumers (_consumers n ++ [consumer]) n in
      let backref :=
        if hasattr_addInput (class_of n consumer)
        then addInput fuel consumer n else (n, Returns tt) in
      match backref with
      | (n, Returns _) =>
          if decide (_executionMode n = ExecutionMode.EXTERNAL)
          then (n, Returns tt)
          else (set_subscribed (subscribed n ++ [consumer]) n, Returns tt)
      | (n, r) => (n, r)
      end.
Proof. reflexivity. Qed.

Lemma addInput_S (fuel : nat) (app : string) (n : Node) :
  addInput (S fuel) app n
  = if mem app (input_of n) then (n, Returns tt)
    else addConsumer fuel app (set_input_of (input_of n ++ [app]) n).
Proof. reflexivity. Qed.

Lemma addStreamingConsumer_S (fuel : nat) (c : string) (n : Node) :
  addStreamingConsumer (S fuel) c n
  = if negb (hasattr_dropCompleted (class_of n c))
       || negb (hasattr_dataWritten (class_of n c))
    then (n, Raises NoStreamingMethods)
    else if mem c (_consumers n)
    then (n, Raises AlreadyNormal)
    else if mem c (_streamingConsumers n)
    then (n, Returns tt)
    else
      let n := set_streamingConsumers (_streamingConsumers n ++ [c]) n in
      if hasattr_addStreamingInput (class_of n c)
      then addStreamingInput fuel c n
      else (n, Returns tt).
Proof. reflexivity. Qed.

Lemma addStreamingInput_S (fuel : nat) (app : string) (n : Node) :
  addStreamingInput (S fuel) app n
  = match class_of n app with
    | BarrierAppDROP => (n, Raises NoStreamingInputs)
    | _ =>
        if mem app (streamingInput_of n) then (n, Returns tt)
        else addStreamingConsumer fuel app
               (set_streamingInput_of (streamingInput_of n ++ [app]) n)
    end.
Proof. reflexivity. Qed.

Lemma mem_app_singleton (x : string) (l : list string) : mem x (l ++ [x]) = true.
Proof. apply mem_true, elem_of_app. right. by apply list_elem_of_singleton. Qed.

Lemma NoDup_append_one (l : list string) (x : string) :
  NoDup l -> x ∉ l -> NoDup (l ++ [x]).
Proof.
  intros Hl Hx. apply NoDup_app. split_and!; [done| |apply NoDup_singleton].
  intros y Hy Hyx. apply list_elem_of_singleton in Hyx as ->. done.
Qed.

(** A consumer that is new to the node, with room for the calls back
    and forth: what [addConsumer] leaves. *)
Lemma addConsumer_new (fuel : nat) (c : string) (n : Node) :
  hasattr_dropCompleted (class_of n c) = true ->
  c ∉ _streamingConsumers n -> c ∉ _consumers n ->
  addConsumer (S (S (S fuel))) c n
  = (let n1 := set_consumers (_consumers n ++ [c]) n in
     let n2 := if hasattr_addInput (class_of n c) && negb (mem c (input_of n))
               then set_input_of (input_of n ++ [c]) n1 else n1 in
     if decide (_executionMode n = ExecutionMode.EXTERNAL) then n2
     else set_subscribed (subscribed n ++ [c]) n2,
     Returns tt).
Proof.
  intros Hattr Hs Hc. rewrite addConsumer_S, Hattr. simpl negb. cbv iota.
  apply mem_false in Hs, Hc. rewrite Hs, Hc. cbv zeta.
  change (class_of (set_consumers (_consumers n ++ [c]) n) c)
    with (class_of n c).
  destruct (hasattr_addInput (class_of n c)); simpl andb.
  - rewrite addInput_S.
    change (input_of (set_consumers (_consumers n ++ [c]) n))
      with (input_of n).
    destruct (mem c (input_of n)); simpl negb; cbv iota.
    + by destruct (decide _).
    + rewrite addConsumer_S. simpl class_of. rewrite Hattr. simpl negb.
      cbv iota. simpl _streamingConsumers. rewrite Hs.
      simpl _consumers. rewrite mem_app_singleton.
      simpl. by destruct (decide _).
  - simpl. by destruct (decide _).
Qed.

Lemma addStreamingConsumer_new (fuel : nat) (c : string) (n : Node) :
  hasattr_dropCompleted (class_of n c) = true ->
  hasattr_dataWritten (class_of n c) = true ->
  c ∉ _streamingConsumers n -> c ∉ _consumers n ->
  addStreamingConsumer (S (S (S fuel))) c n
  = (let n1 := set_streamingConsumers (_streamingConsumers n ++ [c]) n in
     match class_of n c with
     | BarrierAppDROP => (n1, Raises NoStreamingInputs)
     | AppDROP =>
         (if mem c (streamingInput_of n) then n1
          else set_streamingInput_of (streamingInput_of n ++ [c]) n1,
          Returns tt)
     | PlainObject _ _ => (n1, Returns tt)
     end).
Proof.
  intros Hattr1 Hattr2 Hs Hc. rewrite addStreamingConsumer_S, Hattr1, Hattr2.
  simpl orb. cbv iota.
  apply mem_false in Hs, Hc. rewrite Hs, Hc. cbv zeta.
  change (class_of (set_streamingConsumers (_streamingConsumers n ++ [c]) n) c)
    with (class_of n c).
  destruct (class_of n c) eqn:Hcl; simpl hasattr_addStreamingInput; cbv iota.
  - done.
  - rewrite addStreamingInput_S. simpl class_of. rewrite Hcl.
    simpl streamingInput_of.
    destruct (mem c (streamingInput_of n)); [done|].
    rewrite addStreamingConsumer_S. simpl class_of. rewrite Hcl. simpl.
    rewrite Hc. by rewrite mem_app_singleton.
  - rewrite addStreamingInput_S. simpl class_of. by rewrite Hcl.
Qed.

(** The node with one more consumer, and with the applications that
    hold it as an input given by [inputs]. *)
Lemma linked_add_consumer (c : string) (n : Node) (inputs : list string) :
  linked n -> hasattr_dropCompleted (class_of n c) = true ->
  c ∉ _streamingConsumers n -> c ∉ _consumers n ->
  (hasattr_addInput (class_of n c) = true -> c ∈ inputs) ->
  (forall x, x ∈ input_of n -> x ∈ inputs) ->
  linked (mkNode (class_of n) (_executionMode n) (_consumers n ++ [c])
            (_streamingConsumers n) inputs (streamingInput_of n)
            (if decide (_executionMode n = ExecutionMode.EXTERNAL)
             then subscribed n else subscribed n ++ [c])).
Proof.
  intros (Hw & (Hnc & Hns & Hsub) & (Hbc & Hbs)) Hattr Hs Hc Hin Hmore.
  split; [|split].
  - apply (wired_add_consumer c n Hw Hs Hattr).
  - unfold subscribed_once. cbn. split; [by apply NoDup_append_one|].
    split; [exact Hns|]. rewrite Hsub. by destruct (decide _).
  - split; [|exact Hbs]. cbn. intros x Hx Hax.
    apply elem_of_app in Hx as [Hx|Hx]; [by apply Hmore, Hbc|].
    apply list_elem_of_singleton in Hx as ->. by apply Hin.
Qed.

Lemma linked_add_streaming (c : string) (n : Node) (sinputs : list string) :
  linked n -> hasattr_dropCompleted (class_of n c) = true ->
  hasattr_dataWritten (class_of n c) = true ->
  c ∉ _streamingConsumers n -> c ∉ _consumers n ->
  (class_of n c = AppDROP -> c ∈ sinputs) ->
  (forall x, x ∈ streamingInput_of n -> x ∈ sinputs) ->
  linked (mkNode (class_of n) (_executionMode n) (_consumers n)
            (_streamingConsumers n ++ [c]) (input_of n) sinputs
            (subscribed n)).
Proof.
  intros (Hw & (Hnc & Hns & Hsub) & (Hbc & Hbs)) Ha1 Ha2 Hs Hc Hin Hmore.
  split; [|split].
  - apply (wired_add_streaming c n Hw Hc Ha1 Ha2).
  - unfold subscribed_once. cbn. split; [exact Hnc|].
    split; [by apply NoDup_append_one|exact Hsub].
  - split; [exact Hbc|]. cbn. intros x Hx Hax.
    apply elem_of_app in Hx as [Hx|Hx]; [by apply Hmore, Hbs|].
    apply list_elem_of_singleton in Hx as ->. by apply Hin.
Qed.

Lemma linked_more_inputs (n : Node) (a : string) :
  linked n -> linked (set_input_of (input_of n ++ [a]) n).
Proof.
  intros (Hw & Hso & (Hbc & Hbs)). split; [exact Hw|]. split; [exact Hso|].
  split; [|exact Hbs].
  intros x Hx Hax. cbn. apply elem_of_app. left. by apply Hbc.
Qed.

Lemma linked_more_streamingInputs (n : Node) (a : string) :
  linked n -> linked (set_streamingInput_of (streamingInput_of n ++ [a]) n).
Proof.
  intros (Hw & Hso & (Hbc & Hbs)). split; [exact Hw|]. split; [exact Hso|].
  split; [exact Hbc|].
  intros x Hx Hax. cbn. apply elem_of_app. left. by apply Hbs.
Qed.

Lemma elem_of_snoc (x : string) (l : list string) : x ∈ l ++ [x].
Proof. apply elem_of_app. right. by apply list_elem_of_singleton. Qed.

Lemma addConsumer_linked (fuel : nat) (c : string) (n : Node) :
  linked n -> linked (fst (addConsumer (S (S (S fuel))) c n)).
Proof.
  intros Hl.
  destruct (hasattr_dropCompleted (class_of n c)) eqn:Hattr;
    [|by rewrite addConsumer_S, Hattr].
  destruct (mem c (_streamingConsumers n)) eqn:Hs;
    [by rewrite addConsumer_S, Hattr, Hs|].
  destruct (mem c (_consumers n)) eqn:Hc;
    [by rewrite addConsumer_S, Hattr, Hs, Hc|].
  apply mem_false in Hs, Hc.
  rewrite addConsumer_new by done. cbv zeta. cbn [fst].
  destruct (hasattr_addInput (class_of n c)) eqn:Hai; simpl andb.
  - destruct (mem c (input_of n)) eqn:Hi; simpl negb; cbv iota.
    + apply mem_true in Hi.
      pose proof (linked_add_consumer c n (input_of n) Hl Hattr Hs Hc) as H.
      rewrite Hai in H. specialize (H (fun _ => Hi) (fun x Hx => Hx)).
      by destruct (decide _).
    + pose proof (linked_add_consumer c n (input_of n ++ [c]) Hl Hattr Hs Hc)
        as H.
      specialize (H (fun _ => elem_of_snoc c _)).
      assert (forall x, x ∈ input_of n -> x ∈ input_of n ++ [c]) as Hsub
        by (intros x Hx; apply elem_of_app; by left).
      specialize (H Hsub). by destruct (decide _).
  - pose proof (linked_add_consumer c n (input_of n) Hl Hattr Hs Hc) as H.
    rewrite Hai in H.
    assert (false = true -> c ∈ input_of n) as Hno by done.
    specialize (H Hno (fun x Hx => Hx)). by destruct (decide _).
Qed.

Lemma addInput_linked (fuel : nat) (a : string) (n : Node) :
  hasattr_addInput (class_of n a) = true ->
  linked n -> linked (fst (addInput (S (S (S fuel))) a n)).
Proof.
  intros Hai Hl. rewrite addInput_S.
  destruct (mem a (input_of n)) eqn:Hi; [done|].
  pose proof (linked_more_inputs n a Hl) as Hl'.
  set (n' := set_input_of (input_of n ++ [a]) n) in *.
  assert (hasattr_dropCompleted (class_of n' a) = true) as Hattr
    by (simpl; by destruct (class_of n a)).
  rewrite addConsumer_S, Hattr. simpl negb. cbv iota.
  destruct (mem a (_streamingConsumers n')) eqn:Hs; [done|].
  destruct (mem a (_consumers n')) eqn:Hc; [done|].
  apply mem_false in Hs, Hc. cbv zeta.
  change (class_of (set_consumers (_consumers n' ++ [a]) n') a)
    with (class_of n a).
  rewrite Hai, addInput_S.
  change (input_of (set_consumers (_consumers n' ++ [a]) n'))
    with (input_of n ++ [a]).
  rewrite mem_app_singleton.
  pose proof (linked_add_consumer a n' (input_of n') Hl' Hattr Hs Hc) as H.
  specialize (H (fun _ => elem_of_snoc a _) (fun x Hx => Hx)).
  by destruct (decide _).
Qed.

Lemma addStreamingConsumer_linked (fuel : nat) (c : string) (n : Node) :
  linked n -> linked (fst (addStreamingConsumer (S (S (S fuel))) c n)).
Proof.
  intros Hl.
  destruct (hasattr_dropCompleted (class_of n c)) eqn:Ha1;
    [|by rewrite addStreamingConsumer_S, Ha1].
  destruct (hasattr_dataWritten (class_of n c)) eqn:Ha2;
    [|by rewrite addStreamingConsumer_S, Ha1, Ha2].
  destruct (mem c (_consumers n)) eqn:Hc;
    [by rewrite addStreamingConsumer_S, Ha1, Ha2, Hc|].
  destruct (mem c (_streamingConsumers n)) eqn:Hs;
    [by rewrite addStreamingConsumer_S, Ha1, Ha2, Hc, Hs|].
  apply mem_false in Hs, Hc.
  rewrite addStreamingConsumer_new by done. cbv zeta.
  destruct (class_of n c) eqn:Hcl; cbn [fst].
  - apply (linked_add_streaming c n (streamingInput_of n));
      rewrite ?Hcl; done.
  - destruct (mem c (streamingInput_of n)) eqn:Hi.
    + apply mem_true in Hi.
      apply (linked_add_streaming c n (streamingInput_of n));
        rewrite ?Hcl; done.
    + apply (linked_add_streaming c n (streamingInput_of n ++ [c]));
        rewrite ?Hcl; try done.
      * intros _. apply elem_of_snoc.
      * intros x Hx. apply elem_of_app. by left.
  - apply (linked_add_streaming c n (streamingInput_of n));
      rewrite ?Hcl; done.
Qed.

Lemma addStreamingInput_linked (fuel : nat) (a : string) (n : Node) :
  hasattr_addStreamingInput (class_of n a) = true ->
  linked n -> linked (fst (addStreamingInput (S (S (S fuel))) a n)).
Proof.
  intros Hai Hl. rewrite addStreamingInput_S.
  destruct (class_of n a) eqn:Hcl; [done| |done].
  destruct (mem a (streamingInput_of n)) eqn:Hi; [done|].
  pose proof (linked_more_streamingInputs n a Hl) as Hl'.
  set (n' := set_streamingInput_of (streamingInput_of n ++ [a]) n) in *.
  assert (class_of n' a = AppDROP) as Hcl' by done.
  rewrite addStreamingConsumer_S, Hcl'. simpl orb. cbv iota.
  destruct (mem a (_consumers n')) eqn:Hc; [done|].
  destruct (mem a (_streamingConsumers n')) eqn:Hs; [done|].
  apply mem_false in Hs, Hc. cbv zeta.
  set (n1 := set_streamingConsumers (_streamingConsumers n' ++ [a]) n').
  assert (class_of n1 a = AppDROP) as Hcl1 by done.
  rewrite Hcl1. simpl hasattr_addStreamingInput. cbv iota.
  rewrite addStreamingInput_S, Hcl1.
  change (streamingInput_of n1) with (streamingInput_of n ++ [a]).
  rewrite mem_app_singleton.
  apply (linked_add_streaming a n' (streamingInput_of n')); try done.
  - by rewrite Hcl'.
  - by rewrite Hcl'.
  - intros _. apply elem_of_snoc.
Qed.

Lemma step_linked (fuel : nat) (o : Op) (n : Node) :
  linked n -> linked (fst (step (S (S (S fuel))) o n)).
Proof.
  intros Hl. destruct o as [c|c|a|a]; cbn [step].
  - by apply addConsumer_linked.
  - by apply addStreamingConsumer_linked.
  - destruct (hasattr_addInput (class_of n a)) eqn:Hai; [|done].
    by apply addInput_linked.
  - destruct (hasattr_addStreamingInput (class_of n a)) eqn:Hai; [|done].
    by apply addStreamingInput_linked.
Qed.

Lemma run_linked (fuel : nat) (ops : list Op) (n : Node) :
  linked n -> linked (run (S (S (S fuel))) ops n).
Proof.
  revert n. induction ops as [|o rest IH]; intros n Hl; [done|].
  cbn [run]. by apply IH, step_linked.
Qed.

Lemma new_linked classes mode : linked (new classes mode).
Proof.
  split; [apply new_wired|]. split.
  - split; [apply NoDup_nil_2|]. split; [apply NoDup_nil_2|].
    simpl. by destruct (decide _).
  - split; intros x Hx; simpl in Hx; by apply elem_of_nil in Hx.
Qed.

(** The execution mode does not change. *)
Lemma addConsumer_addInput_mode (fuel : nat) :
  (forall c n, _executionMode (fst (addConsumer fuel c n)) = _executionMode n)
  /\ (forall a n, _executionMode (fst (addInput fuel a n)) = _executionMode n).
Proof.
  induction fuel as [|fuel [IHc IHi]]; [by split|]. split.
  - intros c n. rewrite addConsumer_S. destruct (negb _); [done|].
    destruct (mem _ _); [done|]. destruct (mem _ _); [done|]. cbv zeta.
    destruct (hasattr_addInput _); [|simpl; by destruct (decide _)].
    match goal with |- context [addInput fuel c ?x] =>
      specialize (IHi c x); destruct (addInput fuel c x) as [n2 [[]|e|]] end;
      simpl in *; try done. by destruct (decide _).
  - intros a n. rewrite addInput_S. destruct (mem _ _); [done|].
    by rewrite IHc.
Qed.

Lemma addStreaming_mode (fuel : nat) :
  (forall c n, _executionMode (fst (addStreamingConsumer fuel c n))
               = _executionMode n)
  /\ (forall a n, _executionMode (fst (addStreamingInput fuel a n))
                  = _executionMode n).
Proof.
  induction fuel as [|fuel [IHc IHi]]; [by split|]. split.
  - intros c n. rewrite addStreamingConsumer_S. destruct (_ || _); [done|].
    destruct (mem _ _); [done|]. destruct (mem _ _); [done|]. cbv zeta.
    destruct (hasattr_addStreamingInput _); [|done]. by rewrite IHi.
  - intros a n. rewrite addStreamingInput_S.
    destruct (class_of n a); try done;
      (destruct (mem _ _); [done|]; by rewrite IHc).
Qed.

Lemma run_mode (fuel : nat) (ops : list Op) (n : Node) :
  _executionMode (run fuel ops n) = _executionMode n.
Proof.
  revert n. induction ops as [|o rest IH]; intros n; [done|].
  cbn [run]. rewrite IH. destruct o; cbn [step].
  - apply addConsumer_addInput_mode.
  - apply addStreaming_mode.
  - destruct (hasattr_addInput _); [apply addConsumer_addInput_mode|done].
  - destruct (hasattr_addStreamingInput _); [apply addStreaming_mode|done].
Qed.

(** X8. With room for three nested calls, whatever calls are made on a
    new node: no consumer and no streaming consumer is listed twice, and
    the consumers whose handler is subscribed to the 'status' events are
    all the consumers, each once and in the same order, when the node
    drives the execution, and none when the execution is driven from
    outside. *)
Theorem consumers_subscribed_once (fuel : nat)
    (classes : string -> ConsumerClass) (mode : ExecutionMode.t)
    (ops : list Op) :
  let n := run (S (S (S fuel))) ops (new classes mode) in
  NoDup (_consumers n) /\ NoDup (_streamingConsumers n)
  /\ subscribed n
     = match mode with
       | ExecutionMode.EXTERNAL => []
       | ExecutionMode.DROP => _consumers n
       end.
Proof.
  cbv zeta.
  destruct (run_linked fuel ops (new classes mode) (new_linked classes mode))
    as (_ & (Hc & Hs & Hsub) & _).
  split; [exact Hc|]. split; [exact Hs|]. rewrite Hsub.
  rewrite run_mode. simpl. by destruct mode.
Qed.

(** X9. With room for three nested calls, whatever calls are made on a
    new node: an application among its consumers has the node among its
    inputs, and an [AppDROP] among its streaming consumers has it among
    its streaming inputs. *)
Theorem consumers_are_backreferenced (fuel : nat)
    (classes : string -> ConsumerClass) (mode : ExecutionMode.t)
    (ops : list Op) (c : string) :
  let n := run (S (S (S fuel))) ops (new classes mode) in
  (c ∈ _consumers n -> hasattr_addInput (classes c) = true ->
   c ∈ input_of n)
  /\ (c ∈ _streamingConsumers n -> classes c = AppDROP ->
      c ∈ streamingInput_of n).
Proof.
  cbv zeta.
  destruct (run_linked fuel ops (new classes mode) (new_linked classes mode))
    as (_ & _ & (Hbc & Hbs)).
  split; intros Hin Hcl; [apply Hbc | apply Hbs]; try done;
    by rewrite run_class.
Qed.

(** X10. A barrier application that is handed to [addStreamingConsumer]
    is refused by its own [addStreamingInput], and the exception reaches
    the caller, but only after the node has listed it: it stays a
    streaming consumer, and [addConsumer] refuses it from then on. *)
Theorem barrier_stays_streaming_consumer (fuel : nat) (c : string) (n : Node) :
  class_of n c = BarrierAppDROP ->
  c ∉ _consumers n -> c ∉ _streamingConsumers n ->
  let n' := set_streamingConsumers (_streamingConsumers n ++ [c]) n in
  addStreamingConsumer (S (S fuel)) c n = (n', Raises NoStreamingInputs)
  /\ addConsumer (S fuel) c n' = (n', Raises AlreadyStreaming).
Proof.
  intros Hcl Hc Hs. cbv zeta. split.
  - rewrite addStreamingConsumer_S, Hcl. simpl orb. cbv iota.
    apply mem_false in Hc, Hs. rewrite Hc, Hs. cbv zeta.
    change (class_of (set_streamingConsumers (_streamingConsumers n ++ [c]) n) c)
      with (class_of n c).
    rewrite Hcl. simpl hasattr_addStreamingInput. cbv iota.
    rewrite addStreamingInput_S.
    change (class_of (set_streamingConsumers (_streamingConsumers n ++ [c]) n) c)
      with (class_of n c).
    by rewrite Hcl.
  - rewrite addConsumer_S.
    change (class_of (set_streamingConsumers (_streamingConsumers n ++ [c]) n) c)
      with (class_of n c).
    rewrite Hcl. simpl negb. cbv iota. simpl _streamingConsumers.
    by rewrite mem_app_singleton.
Qed.

(** X11. Adding a consumer a second time changes nothing: the second
    [addConsumer] leaves the node as the first left it and ends as the
    first did, and a second [addStreamingConsumer] leaves the node as
    the first left it. *)
Theorem adding_twice_is_adding_once (fuel : nat) (c : string) (n : Node) :
  let once := addConsumer (S (S (S fuel))) c n in
  let sonce := addStreamingConsumer (S (S (S fuel))) c n in
  addConsumer (S (S (S fuel))) c (fst once) = once
  /\ fst (addStreamingConsumer (S (S (S fuel))) c (fst sonce)) = fst sonce.
Proof.
  cbv zeta. split.
  - destruct (hasattr_dropCompleted (class_of n c)) eqn:Hattr;
      [|by rewrite !addConsumer_S, Hattr; cbn; rewrite Hattr].
    destruct (mem c (_streamingConsumers n)) eqn:Hs;
      [by rewrite !addConsumer_S, Hattr, Hs; cbn; rewrite Hattr, Hs|].
    destruct (mem c (_consumers n)) eqn:Hc;
      [by rewrite !addConsumer_S, Hattr, Hs, Hc; cbn; rewrite Hattr, Hs, Hc|].
    apply mem_false in Hs, Hc.
    rewrite (addConsumer_new fuel c n) by done. cbv zeta. cbn [fst].
    set (n2 := if decide _ then _ else _).
    assert (class_of n2 = class_of n /\ _consumers n2 = _consumers n ++ [c]
            /\ _streamingConsumers n2 = _streamingConsumers n) as (Hcl & Hc2 & Hs2).
    { unfold n2. destruct (decide _), (_ && _); by split_and!. }
    rewrite addConsumer_S, Hcl, Hattr, Hs2, Hc2. simpl negb. cbv iota.
    apply mem_false in Hs. by rewrite Hs, mem_app_singleton.
  - destruct (hasattr_dropCompleted (class_of n c)) eqn:Ha1;
      [|by rewrite !addStreamingConsumer_S, Ha1; cbn; rewrite Ha1].
    destruct (hasattr_dataWritten (class_of n c)) eqn:Ha2;
      [|by rewrite !addStreamingConsumer_S, Ha1, Ha2; cbn; rewrite Ha1, Ha2].
    destruct (mem c (_consumers n)) eqn:Hc;
      [by rewrite !addStreamingConsumer_S, Ha1, Ha2, Hc; cbn;
          rewrite Ha1, Ha2, Hc|].
    destruct (mem c (_streamingConsumers n)) eqn:Hs;
      [by rewrite !addStreamingConsumer_S, Ha1, Ha2, Hc, Hs; cbn;
          rewrite Ha1, Ha2, Hc, Hs|].
    apply mem_false in Hs, Hc.
    rewrite (addStreamingConsumer_new fuel c n) by done. cbv zeta.
    apply mem_false in Hc.
    assert (forall n1, class_of n1 = class_of n ->
              _consumers n1 = _consumers n ->
              _streamingConsumers n1 = _streamingConsumers n ++ [c] ->
              fst (addStreamingConsumer (S (S (S fuel))) c n1) = n1) as Hagain.
    { intros n1 Hcl Hc1 Hs1.
      rewrite addStreamingConsumer_S, Hcl, Ha1, Ha2, Hc1, Hs1. simpl orb.
      cbv iota. by rewrite Hc, mem_app_singleton. }
    destruct (class_of n c); cbn [fst]; [by apply Hagain| |by apply Hagain].
    destruct (mem c (streamingInput_of n)); by apply Hagain.
Qed.

End MoreWiringProperties.

Lemma consumers_are_backreferenced_witness :
  let classes := fun _ : string => Wiring.AppDROP in
  let ops := [Wiring.AddConsumer "x"; Wiring.AddStreamingInput "y"] in
  let n := Wiring.run 3 ops (Wiring.new classes ExecutionMode.DROP) in
  "x" ∈ Wiring._consumers n /\ "x" ∈ Wiring.input_of n
  /\ "y" ∈ Wiring._streamingConsumers n /\ "y" ∈ Wiring.streamingInput_of n.
Proof.
  intros classes ops n.
  assert ("x" ∈ Wiring._consumers n) as Hx
    by (apply mem_true; vm_compute; reflexivity).
  assert ("y" ∈ Wiring._streamingConsumers n) as Hy
    by (apply mem_true; vm_compute; reflexivity).
  pose proof (consumers_are_backreferenced 0 classes ExecutionMode.DROP ops)
    as T.
  split; [exact Hx|]. split; [exact (proj1 (T "x") Hx eq_refl)|].
  split; [exact Hy|]. exact (proj2 (T "y") Hy eq_refl).
Defined.

Lemma barrier_stays_streaming_consumer_witness :
  let n := Wiring.new (fun _ => Wiring.BarrierAppDROP) ExecutionMode.DROP in
  let n' := Wiring.set_streamingConsumers ["x"] n in
  "x" ∉ Wiring._consumers n /\ "x" ∉ Wiring._streamingConsumers n
  /\ Wiring.addStreamingConsumer 2 "x" n = (n', Raises NoStreamingInputs)
  /\ Wiring.addConsumer 1 "x" n' = (n', Raises AlreadyStreaming).
Proof.
  intros n n'.
  assert ("x" ∉ Wiring._consumers n) as Hc by apply not_elem_of_nil.
  assert ("x" ∉ Wiring._streamingConsumers n) as Hs by apply not_elem_of_nil.
  split; [exact Hc|]. split; [exact Hs|].
  exact (barrier_stays_streaming_consumer 0 "x" n eq_refl Hc Hs).
Defined.

(** * Further properties of parents and children *)

Section MoreParentProperties.

Import Parent.

Lemma children_set_parent (r r' : nat) (p : option nat) (st : Store) :
  _children (obj (set_parent r p st) r') = _children (obj st r').
Proof. simpl. by destruct (decide (r' = r)) as [->|]. Qed.

Lemma children_append_child (r c r' : nat) (st : Store) :
  _children (obj (append_child r c st) r')
  = if decide (r' = r) then _children (obj st r) ++ [c]
    else _children (obj st r').
Proof. simpl. by destruct (decide (r' = r)). Qed.


Lemma copies_snoc (x y : nat) (l : list nat) :
  copies x (l ++ [y]) = (copies x l + if decide (y = x) then 1 else 0)%nat.
Proof.
  unfold copies. rewrite count_occ_app. simpl.
  destruct (Nat.eq_dec y x), (decide (y = x)); done.
Qed.

(** Children are only ever added. *)
Lemma setter_addChild_children (fuel : nat) :
  (forall s parent st r x,
     (copies x (_children (obj st r))
      <= copies x (_children (obj (fst (parent_setter fuel s parent st)) r)))%nat)
  /\ (forall s c st r x,
        (copies x (_children (obj st r))
         <= copies x (_children (obj (fst (addChild fuel s c st)) r)))%nat).
Proof.
  induction fuel as [|fuel [IHs IHa]]; [by split|].
  assert (forall s c st r x,
            (copies x (_children (obj st r))
             <= copies x (_children
                  (obj (fst (ContainerDROP_addChild (parent_setter fuel)
                               s c st)) r)))%nat) as Hcont.
  { intros s c st r x. unfold ContainerDROP_addChild.
    destruct (decide _); [done|].
    etrans; [|apply IHs]. rewrite children_append_child.
    destruct (decide (r = s)) as [->|]; [|done].
    rewrite copies_snoc. lia. }
  split.
  - intros s [p|] st r x; [|done]. rewrite parent_setter_S. cbv zeta.
    set (st0 := match _parent (obj st s) with
                | Some _ => warn s st | None => st end).
    assert (_children (obj st0 r) = _children (obj st r)) as H0
      by (unfold st0; by destruct (_parent (obj st s))).
    destruct (hasattr_addChild _);
      [|cbn [fst]; by rewrite children_set_parent, H0].
    specialize (IHa p s (set_parent s (Some p) st0) r x).
    rewrite children_set_parent, H0 in IHa.
    destruct (addChild fuel p s _) as [st2 [[]|e|]]; cbn [fst] in *;
      [done| |done].
    by rewrite children_set_parent.
  - intros s c st r x. rewrite addChild_S.
    destruct (class_of (obj st s)); try apply Hcont.
    destruct (class_of (obj st c)); try done;
      (destruct (negb _); [done | apply Hcont]).
Qed.

Lemma obj_eta (o : Obj) : mkObj (class_of o) (_parent o) (_children o) = o.
Proof. by destruct o. Qed.

Lemma before_addChild_class (self p r : nat) (st : Store) :
  class_of (obj (before_addChild self p st) r) = class_of (obj st r).
Proof.
  unfold before_addChild. rewrite class_of_set_parent.
  by destruct (_parent (obj st self)).
Qed.

Lemma before_addChild_parent (self p r : nat) (st : Store) :
  _parent (obj (before_addChild self p st) r)
  = if decide (r = self) then Some p else _parent (obj st r).
Proof.
  unfold before_addChild. rewrite parent_set_parent.
  destruct (decide (r = self)); [done|].
  by destruct (_parent (obj st self)).
Qed.

Lemma before_addChild_children (self p r : nat) (st : Store) :
  _children (obj (before_addChild self p st) r) = _children (obj st r).
Proof.
  unfold before_addChild. rewrite children_set_parent.
  by destruct (_parent (obj st self)).
Qed.

Lemma parent_setter_before (fuel self p : nat) (st : Store) :
  parent_setter (S fuel) self (Some p) st
  = let st1 := before_addChild self p st in
    if hasattr_addChild (class_of (obj st p)) then
      match addChild fuel p self st1 with
      | (st2, Returns _) => (st2, Returns tt)
      | (st2, Spins) => (st2, Spins)
      | (st2, Raises _) =>
          (set_parent self (_parent (obj st self)) st2, Returns tt)
      end
    else (st1, Returns tt).
Proof.
  rewrite parent_setter_S. unfold before_addChild. cbv zeta.
  rewrite class_of_set_parent.
  destruct (_parent (obj st self)) eqn:Hprev; cbn [warn obj];
    by rewrite ?Hprev.
Qed.

(** [p.addChild(self)] raises in its own frame when the child is its parent
    or its class test fails. *)
Lemma addChild_refuses (fuel self p : nat) (st : Store) :
  hasattr_addChild (class_of (obj st p)) = true ->
  _parent (obj st p) = Some self
  \/ accepts (class_of (obj st p)) (class_of (obj st self)) = false ->
  exists e, addChild (S fuel) p self st = (st, Raises e).
Proof.
  intros Hattr Hno. rewrite addChild_S. unfold ContainerDROP_addChild.
  destruct (class_of (obj st p)) as [|?| |path]; try done; simpl in Hno.
  - destruct Hno as [Hc|]; [|done]. rewrite decide_True by done. eauto.
  - destruct (class_of (obj st self)) as [|cpath| |cpath]; eauto;
      (destruct (String.eqb (dirname cpath) path); simpl; [|eauto];
       destruct Hno as [Hc|]; [|done]; rewrite decide_True by done; eauto).
Qed.





(** X12 (ContainerDROP.addChild, DirectoryContainer.addChild, the parent
    setter): neither assigning a parent nor adding a child ever removes an
    entry from any container's list of children, also when the call fails
    or the setter puts the previous parent back: every node is listed in
    every container at least as often after the call as before it. *)
Theorem children_only_grow (fuel s c r x : nat) (parent : option nat)
    (st : Store) :
  (copies x (_children (obj st r))
   <= copies x (_children (obj (fst (parent_setter fuel s parent st)) r)))%nat
  /\ (copies x (_children (obj st r))
      <= copies x (_children (obj (fst (addChild fuel s c st)) r)))%nat.
Proof.
  split; [apply (proj1 (setter_addChild_children fuel))
         | apply (proj2 (setter_addChild_children fuel))].
Qed.

(** X13 (the parent setter with ContainerDROP.addChild and
    DirectoryContainer.addChild): when the new parent has [addChild] and
    refuses the child (the child is its own new parent, or is the parent of
    the new parent, or fails the class test of a [DirectoryContainer]), the
    assignment returns normally and is undone: every node has the class,
    the parent and the children it had before. *)
Theorem refused_parent_is_undone (fuel self p : nat) (st : Store) :
  hasattr_addChild (class_of (obj st p)) = true ->
  p = self \/ _parent (obj st p) = Some self
  \/ accepts (class_of (obj st p)) (class_of (obj st self)) = false ->
  snd (parent_setter (S (S fuel)) self (Some p) st) = Returns tt
  /\ forall r, obj (fst (parent_setter (S (S fuel)) self (Some p) st)) r
               = obj st r.
Proof.
  intros Hattr Hno. rewrite parent_setter_before. cbv zeta. rewrite Hattr.
  destruct (addChild_refuses fuel self p (before_addChild self p st))
    as [e ->].
  - by rewrite before_addChild_class.
  - rewrite !before_addChild_class, before_addChild_parent.
    destruct (decide (p = self)) as [->|]; [by left|].
    destruct Hno as [?|[?|?]]; [done|by left|by right].
  - split; [done|]. intros r. cbn [fst]. unfold set_parent at 1.
    cbn [obj update]. rewrite before_addChild_class, before_addChild_children.
    destruct (decide (r = self)) as [->|]; [apply obj_eta|].
    unfold before_addChild. cbn [obj set_parent update].
    rewrite decide_False by done. by destruct (_parent (obj st self)).
Qed.



End MoreParentProperties.

Lemma refused_parent_is_undone_witness :
  let st := Parent.mkStore
              (fun r => if decide (r = 0%nat)
                        then Parent.mkObj Parent.ContainerDROP (Some 1%nat) []
                        else Parent.mkObj Parent.ContainerDROP None []) [] in
  snd (Parent.parent_setter 2 1 (Some 0%nat) st) = Returns tt
  /\ forall r,
       Parent.obj (fst (Parent.parent_setter 2 1 (Some 0%nat) st)) r
       = Parent.obj st r.
Proof.
  intros st.
  exact (refused_parent_is_undone 0 1 0 st eq_refl
           (or_intror (or_introl eq_refl))).
Defined.



(** * Properties of the outputs of an application *)

Section OutputsProperties.

Import Outputs.

Lemma setitem_values (k : string) (v : nat) (d : list (string * nat)) :
  v ∈ values (setitem k v d).
Proof.
  induction d as [|[k' v'] d IH]; simpl.
  - apply list_elem_of_here.
  - destruct (String.eqb k' k); simpl;
      [apply list_elem_of_here | by apply list_elem_of_further].
Qed.


(** Three frames are all [addOutput] ever uses. *)
Lemma addOutput_frames (fuel r : nat) (g : Graph) :
  addOutput (S (S (S fuel))) (Ref r) g
  = if bool_decide (r ∈ values (_outputs g)) then (g, Returns tt)
    else
      let g1 := set_outputs
                  (setitem (Drop._uid (node g r)) r (_outputs g)) g in
      if bool_decide (Barrier._uid (app g) ∈ Drop._producers (node g r))
      then (subscribe r g1, Returns tt)
      else (subscribe r
              (set_node r (append_producer (Barrier._uid (app g)) (node g r))
                 g1),
            Returns tt).
Proof.
  cbn [addOutput addProducer].
  destruct (bool_decide (r ∈ values (_outputs g))); [done|].
  cbn [app node set_outputs].
  destruct (bool_decide (_ ∈ Drop._producers (node g r))); [done|].
  cbn [_outputs set_node set_outputs].
  by rewrite bool_decide_eq_true_2 by apply setitem_values.
Qed.

(** And all [addProducer] ever uses. *)
Lemma addProducer_frames (fuel r : nat) (g : Graph) :
  addProducer (S (S (S fuel))) r g
  = if bool_decide (Barrier._uid (app g) ∈ Drop._producers (node g r))
    then (g, Returns tt)
    else
      let g1 := set_node r
                  (append_producer (Barrier._uid (app g)) (node g r)) g in
      if bool_decide (r ∈ values (_outputs g)) then (g1, Returns tt)
      else (subscribe r
              (set_outputs
                 (setitem (Drop._uid (node g r)) r (_outputs g)) g1),
            Returns tt).
Proof.
  cbn [addOutput addProducer].
  destruct (bool_decide (_ ∈ Drop._producers (node g r))); [done|].
  cbn [_outputs set_node].
  destruct (bool_decide (r ∈ values (_outputs g))); [done|].
  cbn [app node set_outputs set_node]. rewrite decide_True by done.
  cbn [append_producer Drop._producers Drop._uid].
  rewrite bool_decide_eq_true_2; [done|].
  apply elem_of_app. right. apply list_elem_of_here.
Qed.





(** ** The listeners *)

Lemma producerFinished_keeps_completed (uid : string) (d : Drop.DROP) :
  Drop._status d = COMPLETED ->
  Drop._status (fst (Drop.producerFinished uid d)) = COMPLETED.
Proof.
  intros Hd. unfold Drop.producerFinished.
  destruct (negb _); [done|]. destruct (decide _); [done|].
  cbn [Drop._producers Drop.set_finishedProducers].
  destruct (decide _); [|done].
  unfold Drop.setCompleted. cbn [Drop._status Drop.set_finishedProducers].
  by rewrite Hd.
Qed.

Lemma producerFinished_completes (uid : string) (d : Drop.DROP) :
  awaits uid d ->
  Drop._status (fst (Drop.producerFinished uid d)) = COMPLETED
  /\ uid ∈ Drop._finishedProducers (fst (Drop.producerFinished uid d)).
Proof.
  intros (Hin & Hsize & Hw). unfold Drop.producerFinished.
  rewrite bool_decide_eq_true_2 by done. cbn [negb].
  rewrite decide_False by lia.
  cbn [Drop._producers Drop.set_finishedProducers].
  rewrite decide_True by done.
  unfold Drop.setCompleted. cbn [Drop._status Drop.set_finishedProducers].
  rewrite Hw. cbn [negb]. unfold Drop.status_setter, bind, modify.
  cbn [Drop._status Drop.set_finishedProducers].
  destruct (decide (COMPLETED = Drop._status d)) as [Heq|Hne].
  - rewrite <- Heq in Hw. done.
  - cbn. split; [done|]. set_solver.
Qed.

Lemma appFinished_app (l : nat) (v : AppDROPStates.t) (g : Graph) :
  app (fst (appFinished l v g)) = app g
  /\ subscribed (fst (appFinished l v g)) = subscribed g
  /\ _outputs (fst (appFinished l v g)) = _outputs g
  /\ forall r, r <> l -> node (fst (appFinished l v g)) r = node g r.
Proof.
  unfold appFinished.
  destruct v; try done;
    destruct (Drop.producerFinished _ _) as [d res]; cbn;
    (split_and!; [done..|]); intros r Hr; by rewrite decide_False.
Qed.

Lemma appFinished_node (l : nat) (v : AppDROPStates.t) (g : Graph) :
  v = AppDROPStates.FINISHED \/ v = AppDROPStates.ERROR ->
  node (fst (appFinished l v g)) l
  = fst (Drop.producerFinished (Barrier._uid (app g)) (node g l)).
Proof.
  unfold appFinished. intros [-> | ->];
    destruct (Drop.producerFinished _ _) as [d res]; cbn;
    by rewrite decide_True.
Qed.

Lemma appFinished_keeps_completed (l r : nat) (v : AppDROPStates.t)
    (g : Graph) :
  Drop._status (node g r) = COMPLETED ->
  Drop._status (node (fst (appFinished l v g)) r) = COMPLETED.
Proof.
  intros Hd. destruct (decide (r = l)) as [->|Hne].
  - unfold appFinished. destruct v; try done;
      pose proof (producerFinished_keeps_completed
                    (Barrier._uid (app g)) (node g l) Hd) as Hk;
      destruct (Drop.producerFinished _ _) as [d res]; cbn;
      by rewrite decide_True.
  - by rewrite (proj2 (proj2 (proj2 (appFinished_app l v g)))).
Qed.

Lemma deliver_app (ls : list nat) (v : AppDROPStates.t) (g : Graph) :
  app (deliver ls v g) = app g
  /\ subscribed (deliver ls v g) = subscribed g
  /\ _outputs (deliver ls v g) = _outputs g.
Proof.
  revert g. induction ls as [|l ls IH]; intros g; cbn [deliver]; [done|].
  destruct (IH (fst (appFinished l v g))) as (-> & -> & ->).
  destruct (appFinished_app l v g) as (-> & -> & -> & _). done.
Qed.

Lemma deliver_completes (ls : list nat) (v : AppDROPStates.t) (r : nat)
    (g : Graph) :
  v = AppDROPStates.FINISHED \/ v = AppDROPStates.ERROR ->
  Drop._status (node g r) = COMPLETED
  \/ (r ∈ ls /\ awaits (Barrier._uid (app g)) (node g r)) ->
  Drop._status (node (deliver ls v g) r) = COMPLETED.
Proof.
  intros Hv. revert g.
  induction ls as [|l ls IH]; intros g Hr; cbn [deliver].
  - destruct Hr as [?|[[]%elem_of_nil _]]. done.
  - apply IH. destruct Hr as [Hd|[Hin Ha]].
    + left. by apply appFinished_keeps_completed.
    + destruct (decide (r = l)) as [->|Hne].
      * left. rewrite appFinished_node by done.
        by apply producerFinished_completes.
      * right. apply elem_of_cons in Hin as [?|Hin]; [done|].
        split; [done|].
        destruct (appFinished_app l v g) as (-> & _ & _ & Hn).
        by rewrite Hn.
Qed.

(** X16 (AppDROP.addOutput, AbstractDROP.addProducer): [addOutput] and
    [addProducer] call each other, and three frames are all they use: with
    three frames or more both return, whatever the graph, with the result
    they give with three; after [addOutput] the node is among the values of
    [_outputs], after [addProducer] the application is among the producers
    of the node; an application given as its own output is refused. *)
Theorem outputs_use_three_frames (fuel r : nat) (g : Graph) :
  addOutput (S (S (S fuel))) (Ref r) g = addOutput 3 (Ref r) g
  /\ addProducer (S (S (S fuel))) r g = addProducer 3 r g
  /\ snd (addOutput 3 (Ref r) g) = Returns tt
  /\ snd (addProducer 3 r g) = Returns tt
  /\ r ∈ values (_outputs (fst (addOutput 3 (Ref r) g)))
  /\ Barrier._uid (app g)
     ∈ Drop._producers (node (fst (addProducer 3 r g)) r)
  /\ fst (addOutput (S fuel) Self g) = g
  /\ snd (addOutput (S fuel) Self g) <> Returns tt.
Proof.
  split_and!.
  - by rewrite !addOutput_frames.
  - by rewrite !addProducer_frames.
  - rewrite addOutput_frames. cbv zeta. by repeat case_bool_decide.
  - rewrite addProducer_frames. cbv zeta. by repeat case_bool_decide.
  - rewrite addOutput_frames. cbv zeta.
    case_bool_decide; [done|]. case_bool_decide; cbn; apply setitem_values.
  - rewrite addProducer_frames. cbv zeta.
    case_bool_decide; [done|].
    case_bool_decide; cbn; rewrite decide_True by done; cbn;
      apply elem_of_app; right; apply list_elem_of_here.
  - done.
  - done.
Qed.


(** X18 (BarrierAppDROP.execute, the execStatus setter and the
    [appFinished] listener of AppDROP.addOutput, with
    AbstractDROP.producerFinished): when [run] has left [execStatus] at
    [RUNNING], every output whose listener is subscribed, that can still
    be written to and waits for this application only, is [COMPLETED]
    after [execute], whether [run] returned or raised, and [execute]
    ends as [run] did. *)
Theorem outputs_complete_after_execute
    (run : Graph -> Graph * Result unit) (g g2 : Graph) (res : Result unit)
    (r : nat) :
  run (execStatus_setter AppDROPStates.RUNNING g) = (g2, res) ->
  res <> Spins ->
  Barrier._execStatus (app g2) = AppDROPStates.RUNNING ->
  r ∈ subscribed g2 ->
  awaits (Barrier._uid (app g2)) (node g2 r) ->
  snd (execute run g) = res
  /\ Drop._status (node (fst (execute run g)) r) = COMPLETED
  /\ Barrier._status (app (fst (execute run g))) = COMPLETED.
Proof.
  intros Hrun Hres Hexec Hin Hawaits. unfold execute. rewrite Hrun.
  assert (forall v,
            v = AppDROPStates.FINISHED \/ v = AppDROPStates.ERROR ->
            Drop._status (node (execStatus_setter v g2) r) = COMPLETED)
    as Hdone.
  { intros v Hv. unfold execStatus_setter.
    rewrite decide_False by (rewrite Hexec; by destruct Hv as [-> | ->]).
    apply deliver_completes; [done|]. right. split; [done|].
    cbn [app node set_app]. unfold Barrier.execStatus_setter.
    rewrite decide_False by (rewrite Hexec; by destruct Hv as [-> | ->]).
    done. }
  destruct res as [[]|e|]; [| |done]; cbn [fst snd];
    (split; [done|]); (split; [cbn [node set_app]; apply Hdone; auto|]);
    cbn [app set_app]; apply status_setter_status_app.
Qed.

End OutputsProperties.


Lemma outputs_complete_after_execute_witness :
  let nodes := fun _ : nat => Drop.new "o" "d" 0 memory_backend [] [] in
  let g := Outputs.build 3 [Outputs.AddOutput 0] (Outputs.new "app" nodes) in
  let run := fun g : Outputs.Graph => (g, Raises (AppError "exit code 1")) in
  snd (Outputs.execute run g) = Raises (AppError "exit code 1")
  /\ Drop._status (Outputs.node (fst (Outputs.execute run g)) 0%nat)
     = COMPLETED
  /\ Barrier._status (Outputs.app (fst (Outputs.execute run g))) = COMPLETED.
Proof.
  intros nodes g run.
  set (g2 := Outputs.execStatus_setter AppDROPStates.RUNNING g).
  assert (run g2 = (g2, Raises (AppError "exit code 1"))) as Hrun
    by reflexivity.
  assert (Raises (AppError "exit code 1") <> (Spins : Result unit)) as Hres
    by discriminate.
  assert (Barrier._execStatus (Outputs.app g2) = AppDROPStates.RUNNING)
    as Hexec by reflexivity.
  assert (0%nat ∈ Outputs.subscribed g2) as Hin by apply list_elem_of_here.
  assert (Outputs.awaits (Barrier._uid (Outputs.app g2))
            (Outputs.node g2 0%nat)) as Hawaits.
  { split; [apply list_elem_of_here|]. split; [|reflexivity].
    vm_compute. reflexivity. }
  exact (outputs_complete_after_execute run g g2 _ 0 Hrun Hres Hexec Hin
           Hawaits).
Defined.

(** * Further properties of the container application *)

Section MoreDockerProperties.

Import Docker.

Lemma replace_ips_proceeds (waiters : list ContainerIpWaiter) (cmd : string) :
  replace_ips waiters cmd = None ->
  exists w, w ∈ waiters /\ w_containerIp w = None.
Proof.
  revert cmd. induction waiters as [|w0 rest IH]; intros cmd; [done|].
  cbn [replace_ips]. unfold waitForIp.
  destruct (w_containerIp w0) eqn:E0.
  - intros (w & Hin & Hw)%IH. exists w. split; [|done].
    by apply list_elem_of_further.
  - intros _. exists w0. split; [apply list_elem_of_here | done].
Qed.

Lemma declare_waiters (drops : list Drop) (app : DockerApp) :
  _command (declare drops app) = _command app
  /\ _waiters (declare drops app)
     = _waiters app
       ++ map ContainerIpWaiter_init
            (filter (fun d => interesting (_command app) d = true) drops).
Proof.
  revert app. induction drops as [|d drops IH]; intros app.
  - cbn. by rewrite app_nil_r.
  - change (declare (d :: drops) app)
      with (declare drops (handleInterest d app)).
    destruct (IH (handleInterest d app)) as [-> ->].
    unfold handleInterest. fold (interesting (_command app) d).
    rewrite filter_cons.
    destruct (interesting (_command app) d) eqn:Hi; cbn [_command _waiters].
    + rewrite decide_True by done. cbn [map]. by rewrite <- app_assoc.
    + by rewrite decide_False by done.
Qed.

Lemma publish_waiting (pubs : list (Drop * string)) (app : DockerApp) :
  (exists w, w ∈ _waiters (publish pubs app) /\ w_containerIp w = None)
  <-> exists w, w ∈ _waiters app /\ w_containerIp w = None
                /\ w_uid w ∉ map (fun p => uid (fst p)) pubs.
Proof.
  revert app. induction pubs as [|[d ip] pubs IH]; intros app.
  - cbn. split.
    + intros (w & Hin & Hw). exists w. split_and!; [done..|].
      apply not_elem_of_nil.
    + intros (w & Hin & Hw & _). by exists w.
  - change (publish ((d, ip) :: pubs) app)
      with (publish pubs (containerIp_published d ip app)).
    rewrite IH. cbn [containerIp_published _waiters map fst snd]. split.
    + intros (w' & (w & -> & Hin)%list_elem_of_fmap & Hnone & Hout).
      destruct (String.eqb_spec (w_uid w) (uid d)) as [Heq|Hne]; [done|].
      exists w. split_and!; [done..|].
      intros [?|?]%elem_of_cons; done.
    + intros (w & Hin & Hnone & Hout).
      apply not_elem_of_cons in Hout as [Hne Hout].
      exists w. split_and!; [|done..].
      apply list_elem_of_fmap. exists w. split; [|done].
      by destruct (String.eqb_spec (w_uid w) (uid d)).
Qed.

(** X19 (DockerApp.handleInterest, ContainerIpWaiter, the loop over the
    waiters in DockerApp.run): an application without waiters is told of
    its interest in [drops], and then the applications of [pubs] publish
    their addresses. [run] waits for ever in its loop over the waiters
    exactly when one of [drops] is a [DockerApp] whose placeholder, with
    its uid, is in the command and that has not published its address. *)
Theorem run_blocks_on_unpublished (replace_placeholders : string -> string)
    (app : DockerApp) (drops : list Drop) (pubs : list (Drop * string)) :
  _waiters app = [] ->
  run_command replace_placeholders (publish pubs (declare drops app)) = None
  <-> exists d, d ∈ drops /\ isDockerApp d = true
                /\ contains (placeholder (uid d)) (_command app) = true
                /\ uid d ∉ map (fun p => uid (fst p)) pubs.
Proof.
  intros Hnew. unfold run_command.
  assert (replace_ips (_waiters (publish pubs (declare drops app)))
            (replace_placeholders
               (_command (publish pubs (declare drops app)))) = None
          <-> exists w, w ∈ _waiters (publish pubs (declare drops app))
                        /\ w_containerIp w = None) as ->
    by (split; [apply replace_ips_proceeds | apply replace_ips_blocks]).
  rewrite publish_waiting.
  destruct (declare_waiters drops app) as [_ ->]. rewrite Hnew, app_nil_l.
  split.
  - intros (w & (d & -> & Hd)%list_elem_of_fmap & _ & Hout).
    apply list_elem_of_filter in Hd as [Hi Hd]. unfold interesting in Hi.
    apply andb_prop in Hi as [? ?]. by exists d.
  - intros (d & Hd & Hdock & Hcmd & Hout).
    exists (ContainerIpWaiter_init d). split_and!; [|done..].
    apply list_elem_of_fmap. exists d. split; [done|].
    apply list_elem_of_filter. split; [|done].
    unfold interesting. by rewrite Hdock, Hcmd.
Qed.

(** ** Additional volume bindings *)

Lemma contains_colon (c : ascii) (rest : string) :
  contains ":" (String c rest) = Ascii.eqb c ":" || contains ":" rest.
Proof.
  cbn [contains String.prefix].
  destruct (ascii_dec ":" c) as [<-|Hne];
    [rewrite Ascii.eqb_refl; by destruct rest|].
  destruct (Ascii.eqb_spec c ":") as [->|_]; done.
Qed.

Lemma split_not_nil (sep : ascii) (s : string) : split sep s <> [].
Proof.
  destruct s as [|c rest]; cbn; [done|].
  destruct (Ascii.eqb c sep); [done|]. by destruct (split sep rest).
Qed.

Lemma split_bare (s : string) :
  contains ":" s = false -> split ":" s = [s].
Proof.
  induction s as [|c rest IH]; [done|].
  rewrite contains_colon. intros [Hc Hrest]%orb_false_elim.
  cbn [split]. by rewrite Hc, IH.
Qed.

Lemma split_append (a b : string) :
  contains ":" a = false ->
  split ":" (String.append a (String ":" b)) = a :: split ":" b.
Proof.
  induction a as [|c rest IH]; [done|].
  rewrite contains_colon. intros [Hc Hrest]%orb_false_elim.
  change (String.append (String c rest) (String ":" b))
    with (String c (String.append rest (String ":" b))).
  cbn [split]. by rewrite Hc, IH.
Qed.

Lemma split_length_append (a b : string) :
  length (split ":" (String.append a (String ":" b)))
  = (length (split ":" a) + length (split ":" b))%nat.
Proof.
  induction a as [|c rest IH]; [done|].
  change (String.append (String c rest) (String ":" b))
    with (String c (String.append rest (String ":" b))).
  cbn [split]. destruct (Ascii.eqb c ":"); cbn [length].
  - by rewrite IH.
  - pose proof (split_not_nil ":" rest) as H1.
    pose proof (split_not_nil ":" (String.append rest (String ":" b))) as H2.
    destruct (split ":" rest), (split ":" (String.append rest (String ":" b)));
      done.
Qed.

Lemma contains_append_colon (a b : string) :
  contains ":" (String.append a (String ":" b)) = true.
Proof.
  induction a as [|c rest IH]; [apply contains_colon|].
  change (String.append (String c rest) (String ":" b))
    with (String c (String.append rest (String ":" b))).
  rewrite contains_colon, IH. apply orb_true_r.
Qed.

Lemma concat_cons_char (sep : string) (c : ascii) (x : string)
    (xs : list string) :
  String.concat sep (String c x :: xs)
  = String c (String.concat sep (x :: xs)).
Proof. by destruct xs. Qed.

Lemma concat_split (s : string) : String.concat ":" (split ":" s) = s.
Proof.
  induction s as [|c rest IH]; [done|]. cbn [split].
  pose proof (split_not_nil ":" rest) as Hne.
  destruct (Ascii.eqb_spec c ":") as [->|_];
    destruct (split ":" rest) as [|first others]; try done.
  - by rewrite <- IH.
  - by rewrite concat_cons_char, IH.
Qed.

Lemma bind_string_colon (h c : string) :
  bind_string h c = String.append h (String ":" c).
Proof. reflexivity. Qed.

(** X20 (the [additionalBindings] loop of DockerApp.initialize and the
    [binds] of DockerApp.run): a binding without a colon stands for the
    same path on both sides; a binding made of a host path, a colon and
    a container path, neither with a colon, is taken apart into the two,
    and whenever a binding with a colon is taken, the string [run] hands
    to docker is the binding as given; a binding with two colons or more,
    as [host:container:ro], is not taken: unpacking raises [ValueError]. *)
Theorem binding_parse_format (b h c : string) :
  (contains ":" b = false -> parse_binding b = inr (b, b))
  /\ (contains ":" h = false -> contains ":" c = false ->
      parse_binding (bind_string h c) = inr (h, c))
  /\ (contains ":" b = true -> parse_binding b = inr (h, c) ->
      bind_string h c = b)
  /\ parse_binding (bind_string h (bind_string c b)) = inl ValueError_unpack.
Proof.
  unfold parse_binding. rewrite !bind_string_colon. split_and!.
  - by intros ->.
  - intros Hh Hc. rewrite contains_append_colon. cbn [negb].
    by rewrite split_append, (split_bare c).
  - intros -> Hb. cbn [negb] in Hb.
    pose proof (concat_split b) as Hcat.
    destruct (split ":" b) as [|x [|y [|z rest]]]; try done.
    injection Hb as <- <-. exact Hcat.
  - rewrite contains_append_colon. cbn [negb].
    assert (3 <= length (split ":" (String.append h
                   (String ":" (String.append c (String ":" b))))))%nat
      as Hlen.
    { rewrite !split_length_append.
      pose proof (split_not_nil ":" h) as Hh.
      pose proof (split_not_nil ":" c) as Hc.
      pose proof (split_not_nil ":" b) as Hb.
      destruct (split ":" h), (split ":" c), (split ":" b); try done.
      cbn [length]. lia. }
    destruct (split ":" _) as [|x [|y [|z rest]]]; cbn [length] in Hlen;
      try lia; done.
Qed.

(** X21 (the [additionalBindings] loop of DockerApp.initialize): the loop
    stops at the first binding that cannot be taken, with [ValueError]
    when it has two colons or more, whether or not its path exists, and
    with [InvalidDropException] when its host path does not exist; when
    every binding is taken, the dictionary maps each host path given to
    the container path of the last binding for it and keeps its other
    entries. *)
Theorem bindings_are_taken_in_order (exists_ : string -> bool)
    (given : list string) (bindings : gmap string string) :
  match additionalBindings exists_ given bindings with
  | inr result =>
      exists entries,
        Forall2 (fun binding entry => parse_binding binding = inr entry
                                     /\ exists_ (fst entry) = true)
                given entries
        /\ forall host_path,
             result !! host_path
             = match last (filter (fun entry => fst entry = host_path) entries)
               with
               | Some entry => Some (snd entry)
               | None => bindings !! host_path
               end
  | inl e =>
      exists taken binding rest,
        given = taken ++ binding :: rest
        /\ Forall (fun b => exists entry, parse_binding b = inr entry
                                         /\ exists_ (fst entry) = true) taken
        /\ match parse_binding binding with
           | inl e' => e = e'
           | inr (host_path, _) =>
               exists_ host_path = false /\ e = InvalidDropException host_path
           end
  end.
Proof.
  revert bindings. induction given as [|b given IH]; intros bindings.
  - cbn. exists []. split; [constructor|]. done.
  - cbn [additionalBindings].
    destruct (parse_binding b) as [e|[h c]] eqn:Hb.
    + exists [], b, given. split; [done|]. split; [constructor|].
      by rewrite Hb.
    + destruct (exists_ h) eqn:Hh.
      * specialize (IH (<[h:=c]> bindings)).
        destruct (additionalBindings exists_ given _) as [e|result].
        -- destruct IH as (taken & binding & rest & -> & Htaken & Hlast).
           exists (b :: taken), binding, rest. split; [done|].
           split; [|done]. constructor; [|done]. by exists (h, c).
        -- destruct IH as (entries & Hall & Hlook).
           exists ((h, c) :: entries). split; [by constructor|].
           intros host_path. rewrite Hlook, filter_cons. cbn [fst].
           destruct (decide (h = host_path)) as [->|Hne].
           ++ rewrite last_cons.
              destruct (last _) as [entry|]; [done|].
              by rewrite lookup_insert_eq.
           ++ by rewrite lookup_insert_ne.
      * exists [], b, given. split; [done|]. split; [constructor|].
        by rewrite Hb.
Qed.

End MoreDockerProperties.

Lemma run_blocks_on_unpublished_witness :
  let P := Docker.mkDrop "a" "a1" true in
  let Q := Docker.mkDockerApp (Docker.mkDrop "q" "q1" true)
             "ping %containerIp[a1]%" [] in
  Docker.run_command id (Docker.publish [] (Docker.declare [P] Q)) = None
  /\ Docker.run_command id
       (Docker.publish [(P, "10.0.0.7")] (Docker.declare [P] Q))
     = Some "ping 10.0.0.7".
Proof.
  intros P Q. split; [|vm_compute; reflexivity].
  apply (run_blocks_on_unpublished id Q [P] []); [reflexivity|].
  exists P. split; [apply list_elem_of_here|]. split; [reflexivity|].
  split; [vm_compute; reflexivity | apply not_elem_of_nil].
Defined.

Lemma binding_parse_format_witness :
  Docker.parse_binding "/data" = inr ("/data", "/data")
  /\ Docker.parse_binding "/host:/cont" = inr ("/host", "/cont")
  /\ Docker.parse_binding "/a:/b:ro" = inl Docker.ValueError_unpack.
Proof.
  destruct (binding_parse_format "/data" "/host" "/cont")
    as (Hbare & Hpair & _ & _).
  destruct (binding_parse_format "ro" "/a" "/b") as (_ & _ & _ & Hmode).
  split; [exact (Hbare eq_refl)|].
  split; [exact (Hpair eq_refl eq_refl) | exact Hmode].
Defined.

(** * Properties of the dictionary form *)

Section DropdictProperties.

Import Dropdict.

Lemma key_of_inj (m m' : Adder) : key_of m = key_of m' -> m = m'.
Proof. by destruct m, m'. Qed.

Lemma call_listing (m : Adder) (other self : dropdict) :
  listing self ->
  let d := fst (call m other self) in
  listing d
  /\ d !! key_of m
     = Some (List (listed m self
                   ++ match other !! "oid" with
                      | Some oid => [oid]
                      | None => []
                      end))
  /\ forall k, k <> key_of m -> d !! k = self !! k.
Proof.
  intros Hl. cbv zeta. unfold call, _addSomething, listed. cbv zeta.
  assert (forall (d : dropdict) l,
            (forall k, k <> key_of m -> d !! k = self !! k) ->
            d !! key_of m = Some (List l) -> listing d) as Hkeep.
  { intros d l Hother Hm m'. destruct (decide (m' = m)) as [->|Hne].
    - right. by exists l.
    - rewrite Hother; [apply Hl|]. intros Heq. by apply Hne, key_of_inj. }
  destruct (Hl m) as [Hm|[l Hm]]; rewrite Hm.
  - rewrite lookup_insert_eq.
    destruct (other !! "oid") as [oid|]; cbn [fst app].
    + split_and!.
      * apply (Hkeep _ [oid]); [|by rewrite lookup_insert_eq].
        intros k Hk. by rewrite !lookup_insert_ne.
      * by rewrite lookup_insert_eq.
      * intros k Hk. by rewrite !lookup_insert_ne.
    + split_and!.
      * apply (Hkeep _ []); [|by rewrite lookup_insert_eq].
        intros k Hk. by rewrite lookup_insert_ne.
      * by rewrite lookup_insert_eq.
      * intros k Hk. by rewrite lookup_insert_ne.
  - rewrite Hm. destruct (other !! "oid") as [oid|]; cbn [fst].
    + split_and!.
      * apply (Hkeep _ (l ++ [oid])); [|by rewrite lookup_insert_eq].
        intros k Hk. by rewrite lookup_insert_ne.
      * by rewrite lookup_insert_eq.
      * intros k Hk. by rewrite lookup_insert_ne.
    + split_and!; [done| by rewrite app_nil_r | done].
Qed.

Lemma oids_cons (a m : Adder) (other : dropdict)
    (ops : list (Adder * dropdict)) :
  oids m ((a, other) :: ops)
  = (if decide (a = m)
     then match other !! "oid" with Some oid => [oid] | None => [] end
     else []) ++ oids m ops.
Proof.
  unfold oids. cbn. destruct (decide (a = m)); [|done].
  by destruct (other !! "oid").
Qed.

Lemma oids_absent (m : Adder) (ops : list (Adder * dropdict)) :
  m ∉ map fst ops -> oids m ops = [].
Proof.
  induction ops as [|[a other] ops IH]; [done|].
  cbn [map fst]. intros [Hne Hin]%not_elem_of_cons.
  rewrite oids_cons, decide_False by done. by apply IH.
Qed.

Lemma calls_listing (ops : list (Adder * dropdict)) (self : dropdict) :
  listing self ->
  let d := calls ops self in
  listing d
  /\ (forall m, d !! key_of m
                = if bool_decide (m ∈ map fst ops)
                  then Some (List (listed m self ++ oids m ops))
                  else self !! key_of m)
  /\ forall k, (forall m, k <> key_of m) -> d !! k = self !! k.
Proof.
  revert self. induction ops as [|[a other] ops IH]; intros self Hl.
  - cbn. split; [done|]. split; [|done]. intros m.
    by rewrite bool_decide_eq_false_2 by apply not_elem_of_nil.
  - cbv zeta.
    change (calls ((a, other) :: ops) self)
      with (calls ops (fst (call a other self))).
    destruct (call_listing a other self Hl) as (Hl1 & Ha & Hother).
    destruct (IH _ Hl1) as (Hl2 & Hm2 & Hk2).
    split; [done|]. split.
    + intros m. rewrite Hm2, oids_cons. cbn [map fst].
      destruct (decide (a = m)) as [->|Hne].
      * rewrite (bool_decide_eq_true_2 (m ∈ m :: _))
          by apply list_elem_of_here.
        unfold listed at 1. rewrite Ha.
        case_bool_decide as Hin.
        -- by rewrite app_assoc.
        -- by rewrite (oids_absent m ops Hin), app_nil_r.
      * assert (key_of m <> key_of a) as Hk
          by (intros Heq; by apply Hne, symmetry, key_of_inj).
        unfold listed. rewrite (Hother _ Hk). cbn [app].
        destruct (bool_decide (m ∈ map fst ops)) eqn:Hin.
        -- apply bool_decide_eq_true_1 in Hin.
           rewrite bool_decide_eq_true_2; [done|].
           by apply list_elem_of_further.
        -- apply bool_decide_eq_false_1 in Hin.
           rewrite bool_decide_eq_false_2; [done|].
           intros [?|?]%elem_of_cons; done.
    + intros k Hk. rewrite Hk2 by done. by apply Hother.
Qed.

(** X22 (dropdict._addSomething and the six methods on it): start from
    a dictionary without the keys of the six methods and call them in any
    order, each with a dictionary of its own. Under the key of a method
    that was called stands the list of the oids its calls were given, in
    call order; a call given a dictionary without 'oid' raises [KeyError]
    and adds nothing to the list, but creates it; the key of a method that
    was not called is absent, and no other key changes. *)
Theorem dropdict_lists_oids (ops : list (Adder * dropdict))
    (self : dropdict) :
  (forall m, self !! key_of m = None) ->
  let d := calls ops self in
  (forall m, d !! key_of m
             = if bool_decide (m ∈ map fst ops)
               then Some (List (oids m ops)) else None)
  /\ (forall k, (forall m, k <> key_of m) -> d !! k = self !! k)
  /\ (forall m other d0,
        d0 !! key_of m = None -> other !! "oid" = None ->
        call m other d0
        = (<[key_of m := List []]> d0, Some (KeyError "oid"))).
Proof.
  intros Hnew. cbv zeta.
  assert (listing self) as Hl by (intros m; left; apply Hnew).
  destruct (calls_listing ops self Hl) as (_ & Hm & Hk). split_and!.
  - intros m. rewrite Hm. unfold listed. by rewrite Hnew.
  - done.
  - intros m other d0 Hd Ho. unfold call, _addSomething.
    by rewrite Hd, lookup_insert_eq, Ho.
Qed.

End DropdictProperties.

Lemma dropdict_lists_oids_witness :
  let a : Dropdict.dropdict := {[ "oid" := Dropdict.Str "A" ]} in
  let b : Dropdict.dropdict := {[ "oid" := Dropdict.Str "B" ]} in
  let self : Dropdict.dropdict := {[ "oid" := Dropdict.Str "S" ]} in
  let d := Dropdict.calls [(Dropdict.addConsumer, a); (Dropdict.addInput, b);
                           (Dropdict.addConsumer, ∅);
                           (Dropdict.addConsumer, b)] self in
  d !! "consumers"
  = Some (Dropdict.List [Dropdict.Str "A"; Dropdict.Str "B"])
  /\ d !! "outputs" = None
  /\ d !! "oid" = Some (Dropdict.Str "S").
Proof.
  intros a b self d.
  assert (forall m, self !! Dropdict.key_of m = None) as Hnew
    by (intros m; by destruct m).
  destruct (dropdict_lists_oids
              [(Dropdict.addConsumer, a); (Dropdict.addInput, b);
               (Dropdict.addConsumer, ∅); (Dropdict.addConsumer, b)]
              self Hnew) as (Hm & Hk & _).
  split; [exact (Hm Dropdict.addConsumer)|].
  split; [exact (Hm Dropdict.addOutput)|].
  assert (forall m, "oid" <> Dropdict.key_of m) as Hoid
    by (intros m; by destruct m).
  exact (eq_trans (Hk "oid" Hoid) eq_refl).
Defined.

(** * The bytes stored and the bytes streamed *)

Section StreamProperties.

Import Drop.

Variable crc32 : list byte -> Z -> Z.
Variable cst : ChecksumTypes.
















End StreamProperties.

